(** * Cache-geometry microbenchmark (src/main.cpp): a shallow embedding

    Values of the C++ program are modelled as follows.
    - [size_t] and [long long] values are [Z]; the conversions and the
      unsigned wrap-around of the source are written out with [to_size_t]
      and [to_ll]; a signed overflow (undefined behaviour) is an error.
    - A [std::vector<void*>] test buffer is a [list Ptr]; a pointer into the
      buffer is [Some k] for [&buffer[k]] and [None] for [nullptr].
    - Aborting on an assertion, throwing [std::length_error] and each kind
      of undefined behaviour (null dereference, out-of-range access, empty
      [max_element], signed overflow) is an error of the [result] type.
    - The clock [std::chrono::high_resolution_clock::now()] is an input:
      a function [clk : nat -> Z] giving the k-th reading, with a counter of
      the readings done so far threaded through the code. *)

From Stdlib Require Import ZArith Lia.
From stdpp Require Import base list list_numbers.

Open Scope Z_scope.

(* ------------------------------------------------------------------ *)
(** ** Errors and the result type *)

Inductive fault :=
  | AssertFailure   (* assert(...) aborts the process *)
  | LengthError     (* std::vector constructor throws std::length_error *)
  | OutOfBounds     (* vector element access outside [0, size) *)
  | NullDeref       (* dereference of a null pointer *)
  | EmptyMax        (* dereference of max_element over an empty range *)
  | SignedOverflow  (* long long arithmetic overflows *)
  | OutOfFuel.      (* a loop ran longer than its fuel (never reached) *)

Inductive result (A : Type) : Type :=
  | Ok (a : A)
  | Err (e : fault).
Arguments Ok {A} a.
Arguments Err {A} e.

Global Instance result_ret : MRet result := fun A a => Ok a.
Global Instance result_bind : MBind result :=
  fun A B f m => match m with Ok a => f a | Err e => Err e end.

(* ------------------------------------------------------------------ *)
(** ** Machine integers *)

(** [sizeof(void* )] on the 64-bit targets the program is built for. *)
Definition ptr_size : Z := 8.

(** Unsigned 64-bit arithmetic wraps modulo 2^64. *)
Definition to_size_t (x : Z) : Z := x mod 2^64.

(** Conversion of a value to [long long] (two's complement, as g++ does). *)
Definition to_ll (x : Z) : Z :=
  let m := x mod 2^64 in if m <? 2^63 then m else m - 2^64.

Definition in_ll (x : Z) : bool := (- 2^63 <=? x) && (x <? 2^63).

Definition ll_add (a b : Z) : result Z :=
  if in_ll (a + b) then Ok (a + b) else Err SignedOverflow.

Definition ll_sub (a b : Z) : result Z :=
  if in_ll (a - b) then Ok (a - b) else Err SignedOverflow.

(** [std::numeric_limits<long long>::max()] *)
Definition LLONG_MAX : Z := 2^63 - 1.

(** [std::vector<void*>::max_size()] in libstdc++: PTRDIFF_MAX / sizeof(T). *)
Definition vector_max_size : Z := (2^63 - 1) / ptr_size.

(** [sizeof(long long)] *)
Definition ll_size : Z := 8.

(** [std::vector<long long>::max_size()] in libstdc++: PTRDIFF_MAX / sizeof(T). *)
Definition ll_vector_max_size : Z := (2^63 - 1) / ll_size.

(* ------------------------------------------------------------------ *)
(** ** The test buffer *)

Abbreviation Ptr := (option Z).
Abbreviation Buffer := (list Ptr).

(** [buffer[k]] *)
Definition lookupZ (b : Buffer) (k : Z) : option Ptr :=
  if 0 <=? k then b !! Z.to_nat k else None.

(** [buffer[k] = v] *)
Definition writeZ (b : Buffer) (k : Z) (v : Ptr) : result Buffer :=
  if (0 <=? k) && (k <? Z.of_nat (length b))
  then Ok (<[Z.to_nat k := v]> b) else Err OutOfBounds.

(** The loop of [mkTestBuffer]:
<<
    for (long long i = size - 1, j = size - 1 - step; j >= 0; i = j, j -= step) {
        buffer[i] = &buffer[j];
        buffer[j] = &buffer[size - 1];
    }
>>
    [j -= step] is computed in [size_t] and stored back in a [long long]. *)
Fixpoint build_loop (fuel : nat) (size step i j : Z) (b : Buffer) : result Buffer :=
  match fuel with
  | O => Err OutOfFuel
  | S f =>
      if 0 <=? j then
        b1 ← writeZ b i (Some j);
        b2 ← writeZ b1 j (Some (size - 1));
        build_loop f size step j (to_ll (j - step)) b2
      else Ok b
  end.

(** [std::vector<void *> mkTestBuffer(const size_t size, const size_t step)] *)
Definition mkTestBuffer (size step : Z) : result Buffer :=
  if (0 <? size) && (0 <? step) then
    if vector_max_size <? size then Err LengthError
    else build_loop (S (Z.to_nat size)) size step
           (to_ll (size - 1)) (to_ll (size - 1 - step))
           (replicate (Z.to_nat size) None)
  else Err AssertFailure.

(** [*pos] for a pointer [pos] into the buffer. *)
Definition deref (b : Buffer) (p : Ptr) : result Ptr :=
  match p with
  | None => Err NullDeref
  | Some k => match lookupZ b k with Some v => Ok v | None => Err OutOfBounds end
  end.

(** [n] iterations of [pos = (size_t** ) *pos]. *)
Fixpoint chase (b : Buffer) (n : nat) (p : Ptr) : result Ptr :=
  match n with
  | O => Ok p
  | S n' => p' ← deref b p; chase b n' p'
  end.

(** The designated entry: [buffer[buffer.size() - 1]]. *)
Definition entry (b : Buffer) : result Ptr :=
  deref b (Some (to_size_t (Z.of_nat (length b) - 1))).

(** [size_t *touchTestBuffer(buffer, nTouches)] *)
Definition touchTestBuffer (b : Buffer) (nTouches : nat) : result Ptr :=
  pos ← entry b;
  pos' ← chase b nTouches pos;
  deref b pos'.

(** The loop of [touchTestBufferTimed]: each hop is bracketed by two clock
    readings and [(end - start).count()] is pushed onto [times]. *)
Fixpoint timed_loop (clk : nat -> Z) (b : Buffer) (n : nat) (c : nat) (pos : Ptr)
    (times : list Z) : result (list Z * Ptr * nat) :=
  match n with
  | O => Ok (times, pos, c)
  | S n' =>
      let start := clk c in
      pos' ← deref b pos;
      let stop := clk (S c) in
      d ← ll_sub stop start;
      timed_loop clk b n' (S (S c)) pos' (times ++ [d])
  end.

(** [touchTestBufferTimed(buffer, nTouches)]: the timing series, the final
    landing value, and the clock counter after the call. *)
Definition touchTestBufferTimed (clk : nat -> Z) (b : Buffer) (nTouches : nat) (c : nat)
    : result (list Z * Ptr * nat) :=
  pos ← entry b;
  (* [times.reserve(nTouches)] throws std::length_error above max_size() *)
  if ll_vector_max_size <? Z.of_nat nTouches then Err LengthError else
  '(times, pos', c') ← timed_loop clk b nTouches c pos [];
  v ← deref b pos';
  Ok (times, v, c').

(* ------------------------------------------------------------------ *)
(** ** Cache-size inference *)

(** [struct RawLevelInfo { const size_t arraySizeBytes; const long long timeNanos; }] *)
Record RawLevelInfo := mkInfo {
  arraySizeBytes : Z;
  timeNanos : Z
}.

(** First loop of [selectCacheSize]: [diffs[i-1] = {curr.arraySizeBytes,
    curr.timeNanos - prev.timeNanos}] for [i = 1 .. infos.size() - 1]. *)
Fixpoint mkDiffs (infos : list RawLevelInfo) : result (list RawLevelInfo) :=
  match infos with
  | prev :: ((curr :: _) as rest) =>
      d ← ll_sub (timeNanos curr) (timeNanos prev);
      ds ← mkDiffs rest;
      Ok (mkInfo (arraySizeBytes curr) d :: ds)
  | _ => Ok []
  end.

(** [diffs[k]] *)
Definition elementAt (ds : list RawLevelInfo) (k : Z) : result RawLevelInfo :=
  if 0 <=? k then
    match ds !! Z.to_nat k with Some d => Ok d | None => Err OutOfBounds end
  else Err OutOfBounds.

(** [for (size_t j = i + 1 - windowSize; j < i; ++j) sum += diffs[j].timeNanos;] *)
Fixpoint window_inner (fuel : nat) (ds : list RawLevelInfo) (i j sum : Z) : result Z :=
  match fuel with
  | O => Err OutOfFuel
  | S f =>
      if j <? i then
        d ← elementAt ds j;
        sum' ← ll_add sum (timeNanos d);
        window_inner f ds i (j + 1) sum'
      else Ok sum
  end.

(** [for (size_t i = windowSize - 1; i < diffs.size() - 2; ++i) { ... }];
    [diffs.size() - 2] is computed in [size_t]. *)
Fixpoint window_outer (fuel : nat) (ds : list RawLevelInfo) (w i : Z)
    (acc : list RawLevelInfo) : result (list RawLevelInfo) :=
  match fuel with
  | O => Err OutOfFuel
  | S f =>
      if i <? to_size_t (Z.of_nat (length ds) - 2) then
        d ← elementAt ds i;
        sum ← window_inner (S (Z.to_nat w)) ds i (to_size_t (i + 1 - w)) (timeNanos d);
        window_outer f ds w (i + 1) (acc ++ [mkInfo (arraySizeBytes d) sum])
      else Ok acc
  end.

(** The [windowed] series of [selectCacheSize]. *)
Definition windowed (ds : list RawLevelInfo) (w : Z) : result (list RawLevelInfo) :=
  window_outer (S (length ds)) ds w (w - 1) [].

(** [*std::max_element(first, last, comp)] with [comp] comparing
    [timeNanos] by [<]: the first largest element; dereferencing the end
    iterator of an empty range is undefined. *)
Definition maxElement (ws : list RawLevelInfo) : result RawLevelInfo :=
  match ws with
  | [] => Err EmptyMax
  | x :: rest =>
      Ok (fold_left (fun best y => if timeNanos best <? timeNanos y then y else best) rest x)
  end.

(** [size_t selectCacheSize(infos, windowSize = 3)] *)
Definition selectCacheSize (infos : list RawLevelInfo) (windowSize : Z) : result Z :=
  if windowSize <? 2 then Err AssertFailure
  else
    ds ← mkDiffs infos;
    ws ← windowed ds windowSize;
    m ← maxElement ws;
    Ok (arraySizeBytes m).

(* ------------------------------------------------------------------ *)
(** ** Cache-size probing *)

(** [const size_t nTouches = 1000000;] *)
Definition nTouches : Z := 1000000.

(** [std::max(size_t(1), size / nTouches)] *)
Definition roundStride (size : Z) : Z := Z.max 1 (size / nTouches).

(** The body of the loop of [tryCacheLevelSizes] for one [size] (in slots):
    build the buffer, warm it up, time a second traversal. Returns the
    record and the clock counter. *)
Definition probeRound (clk : nat -> Z) (size : Z) (c : nat) : result (RawLevelInfo * nat) :=
  buffer ← mkTestBuffer size (roundStride size);
  _ ← touchTestBuffer buffer (Z.to_nat nTouches);
  let start := clk c in
  _ ← touchTestBuffer buffer (Z.to_nat nTouches);
  let stop := clk (S c) in
  t ← ll_sub stop start;
  Ok (mkInfo (to_size_t (size * ptr_size)) t, S (S c)).

(** [for (size_t size = minSize; size <= maxSize; size += sizeStep) { ... }] *)
Fixpoint levels_loop (clk : nat -> Z) (fuel : nat) (maxSize sizeStep size : Z) (c : nat)
    (acc : list RawLevelInfo) : result (list RawLevelInfo * nat) :=
  match fuel with
  | O => Err OutOfFuel
  | S f =>
      if size <=? maxSize then
        '(info, c') ← probeRound clk size c;
        levels_loop clk f maxSize sizeStep (to_size_t (size + sizeStep)) c' (acc ++ [info])
      else Ok (acc, c)
  end.

(** [std::vector<RawLevelInfo> tryCacheLevelSizes(minSizeBytes, maxSizeBytes)] *)
Definition tryCacheLevelSizes (clk : nat -> Z) (minSizeBytes maxSizeBytes : Z) (c : nat)
    : result (list RawLevelInfo * nat) :=
  let minSize := minSizeBytes / ptr_size in
  let maxSize := maxSizeBytes / ptr_size in
  levels_loop clk (S (S (Z.to_nat maxSize))) maxSize minSize minSize c [].

(* ------------------------------------------------------------------ *)
(** ** Cache-line-size inference *)

(** [for (auto it = times.begin() + 1; it != times.end(); ++it)
        diffs.push_back( *it - *(it - 1) );]
    on an empty [times], [begin() + 1] is past the end. *)
Fixpoint adjacent_diffs (ts : list Z) : result (list Z) :=
  match ts with
  | a :: ((b :: _) as rest) => d ← ll_sub b a; ds ← adjacent_diffs rest; Ok (d :: ds)
  | _ => Ok []
  end.

Definition lineDiffs (ts : list Z) : result (list Z) :=
  match ts with [] => Err OutOfBounds | _ => adjacent_diffs ts end.

(** [*std::max_element(diffs.begin(), diffs.end())] *)
Definition maxElementZ (ds : list Z) : result Z :=
  match ds with
  | [] => Err EmptyMax
  | x :: rest => Ok (fold_left (fun best y => if best <? y then y else best) rest x)
  end.

(** [for (step = 1; step < size; step *= 2) { ... }] followed by
    [return step * sizeof(void* );]. Returns the value and the clock counter. *)
Fixpoint line_loop (clk : nat -> Z) (fuel : nat) (size step lastMaxJump : Z) (c : nat)
    : result (Z * nat) :=
  match fuel with
  | O => Err OutOfFuel
  | S f =>
      if step <? size then
        buffer ← mkTestBuffer size step;
        '(times, _, c') ← touchTestBufferTimed clk buffer (Z.to_nat (size / step)) c;
        diffs ← lineDiffs times;
        mx ← maxElementZ diffs;
        if negb (lastMaxJump =? LLONG_MAX) && (mx <? Z.quot lastMaxJump 10)
        then Ok (to_size_t (step * ptr_size), c')
        else line_loop clk f size (to_size_t (step * 2)) mx c'
      else Ok (to_size_t (step * ptr_size), c)
  end.

(** [size_t calcCacheLineSize(const size_t cacheSizeBytes)] *)
Definition calcCacheLineSize (clk : nat -> Z) (cacheSizeBytes : Z) (c : nat) : result (Z * nat) :=
  line_loop clk 64 (cacheSizeBytes / ptr_size) 1 LLONG_MAX c.

(* ------------------------------------------------------------------ *)
(** ** The program *)

(** [const size_t KB = 1024;] *)
Definition KB : Z := 1024.

(** [int main()] without its output: the three stages, each one fed with
    the previous one's result and the clock counter; returns [cacheSize]
    and [cacheLineSize]. *)
Definition main_model (clk : nat -> Z) : result (Z * Z) :=
  '(rawLevels, c) ← tryCacheLevelSizes clk (8 * KB) (256 * KB) 0;
  cacheSize ← selectCacheSize rawLevels 3;
  '(cacheLineSize, _) ← calcCacheLineSize clk cacheSize c;
  Ok (cacheSize, cacheLineSize).

(* ------------------------------------------------------------------ *)
(** ** Auxiliary notions for the proofs *)

(** Shape of a finished buffer, used to state the proofs below.
    [cell_from size step i x]: slot [x] once the loop of [mkTestBuffer] has
    linked every slot down to [i]: the slots congruent to [size - 1] at or
    above [i] point [step] slots lower, slot [i] points back to the last
    slot, every other slot is still null. *)
Definition cell_from (size step i x : Z) : Ptr :=
  if (x mod step =? (size - 1) mod step) && (i <=? x)
  then (if x =? i then Some (size - 1) else Some (x - step))
  else None.

(** Slot [x] of the finished buffer. *)
Definition cell (size step x : Z) : Ptr :=
  if x mod step =? (size - 1) mod step
  then (if x <? step then Some (size - 1) else Some (x - step))
  else None.

(** Number of slots on the chain: [floor((size - 1) / step) + 1]. *)
Definition chain_len (size step : Z) : Z := (size - 1) / step + 1.

(** [infos[k].timeNanos] and [infos[k].arraySizeBytes] as total functions
    (0 out of range), to state the proofs below. *)
Definition timeAt (infos : list RawLevelInfo) (k : Z) : Z :=
  match infos !! Z.to_nat k with Some x => timeNanos x | None => 0 end.
Definition sizeAt (infos : list RawLevelInfo) (k : Z) : Z :=
  match infos !! Z.to_nat k with Some x => arraySizeBytes x | None => 0 end.

(** The [k]-th entry of the windowed series in closed form: a window sum of
    consecutive differences telescopes to [T(k+1) - T(k+1-w)]. *)
Definition winEntry (infos : list RawLevelInfo) (w k : Z) : RawLevelInfo :=
  mkInfo (sizeAt infos (k + 1)) (timeAt infos (k + 1) - timeAt infos (k + 1 - w)).

(** Timing values well inside the [long long] range: no difference or
    window sum of them overflows. *)
Definition small_times (infos : list RawLevelInfo) : Prop :=
  forall x, x ∈ infos -> - 2^60 < timeNanos x < 2^60.

(** A clock whose consecutive readings are less than 2^60 ns apart: the
    elapsed times are far inside the [long long] range. *)
Definition clock_ok (clk : nat -> Z) : Prop :=
  forall k, - 2^60 < clk (S k) - clk k < 2^60.

(** The computation does not end in a failed [assert]. *)
Definition no_assert {A} (r : result A) : Prop := r <> Err AssertFailure.

(** The rounds of [tryCacheLevelSizes] listed by their slot counts:
    [probeRound] on each size in turn, threading the clock counter and the
    records, stopping at the first fault. *)
Fixpoint probe_rounds (clk : nat -> Z) (sizes : list Z) (c : nat) (acc : list RawLevelInfo)
    : result (list RawLevelInfo * nat) :=
  match sizes with
  | [] => Ok (acc, c)
  | s :: rest => '(info, c') ← probeRound clk s c; probe_rounds clk rest c' (acc ++ [info])
  end.

(** The slot counts [minSize * (j + 1)] for [j = 0 .. maxSize / minSize - 1]. *)
Definition round_sizes (minSize maxSize : Z) : list Z :=
  map (fun j => minSize * (j + 1)) (seqZ 0 (maxSize / minSize)).

(** A clock that always reads 0. *)
Definition const_clock : nat -> Z := fun _ => 0.

(** [small_times] as a check on a concrete series. *)
Definition small_times_b (infos : list RawLevelInfo) : bool :=
  forallb (fun x => (- 2^60 <? timeNanos x) && (timeNanos x <? 2^60)) infos.

(** A series of seven raw points with strictly increasing times. *)
Definition sample7 : list RawLevelInfo :=
  [mkInfo 1 0; mkInfo 2 10; mkInfo 3 11; mkInfo 4 12; mkInfo 5 13; mkInfo 6 14; mkInfo 7 15].

(** A series of five raw points. *)
Definition sample5 : list RawLevelInfo :=
  [mkInfo 1 0; mkInfo 2 10; mkInfo 3 11; mkInfo 4 12; mkInfo 5 13].

(* ------------------------------------------------------------------ *)
(** ** Basic facts and examples *)

Lemma bind_Ok {A B} (a : A) (f : A -> result B) : (Ok a ≫= f) = f a.
Proof. reflexivity. Qed.

Lemma bind_Err {A B} (e : fault) (f : A -> result B) : (Err e ≫= f) = Err e.
Proof. reflexivity. Qed.

Example mk_4_1 : mkTestBuffer 4 1 = Ok [Some 3; Some 0; Some 1; Some 2].
Proof. reflexivity. Qed.
Example mk_3_2 : mkTestBuffer 3 2 = Ok [Some 2; None; Some 0].
Proof. reflexivity. Qed.
Example mk_7_3 : mkTestBuffer 7 3 = Ok [Some 6; None; None; Some 0; None; None; Some 3].
Proof. reflexivity. Qed.
Example mk_3_5 : mkTestBuffer 3 5 = Ok [None; None; None].
Proof. reflexivity. Qed.
Example touch_4_1 : touchTestBuffer [Some 3; Some 0; Some 1; Some 2] 5 = Ok (Some 0).
Proof. reflexivity. Qed.

(* ------------------------------------------------------------------ *)
(** ** Arithmetic helpers *)

Lemma to_ll_id (x : Z) : - 2^63 <= x < 2^63 -> to_ll x = x.
Proof.
  intros H. unfold to_ll. destruct (Z_le_gt_dec 0 x).
  - rewrite Z.mod_small by lia. destruct (Z.ltb_spec x (2^63)); lia.
  - rewrite <- (Z.mod_unique x (2^64) (-1) (x + 2^64)) by lia.
    destruct (Z.ltb_spec (x + 2^64) (2^63)); lia.
Qed.

Lemma to_size_t_id (x : Z) : 0 <= x < 2^64 -> to_size_t x = x.
Proof. intros H. unfold to_size_t. apply Z.mod_small. lia. Qed.

Lemma mod_sub_step (x s : Z) : 0 < s -> (x - s) mod s = x mod s.
Proof.
  intros Hs. replace (x - s) with (x + (-1) * s) by ring.
  apply Z_mod_plus_full.
Qed.

Lemma mod_sub_mul (x m s : Z) : 0 < s -> (x - m * s) mod s = x mod s.
Proof.
  intros Hs. replace (x - m * s) with (x + (- m) * s) by ring.
  apply Z_mod_plus_full.
Qed.

(** Two numbers with the same residue modulo [s] are [s] apart or more. *)
Lemma mod_gap (x y s : Z) : 0 < s -> x mod s = y mod s -> y - s < x < y -> False.
Proof.
  intros Hs Hm Hxy.
  pose proof (Z.div_mod x s ltac:(lia)). pose proof (Z.div_mod y s ltac:(lia)).
  assert (E : x - y = s * (x / s - y / s)) by lia.
  set (t := x / s - y / s) in *.
  destruct (Z_lt_le_dec t 0) as [Ht | Ht].
  - assert (t <= -1) by lia. nia.
  - nia.
Qed.

(** A number below [s] is its own residue. *)
Lemma mod_small_eq (x y s : Z) : 0 <= x < s -> x mod s = y mod s -> x = y mod s.
Proof. intros Hx Hm. rewrite <- Hm. symmetry. apply Z.mod_small. lia. Qed.

Lemma mod_succ (a L : Z) : 0 < L ->
  (a + 1) mod L = if a mod L + 1 =? L then 0 else a mod L + 1.
Proof.
  intros HL. pose proof (Z.mod_pos_bound a L HL). pose proof (Z.div_mod a L ltac:(lia)).
  destruct (Z.eqb_spec (a mod L + 1) L) as [E | E].
  - symmetry. apply (Z.mod_unique (a + 1) L (a / L + 1) 0); lia.
  - symmetry. apply (Z.mod_unique (a + 1) L (a / L) (a mod L + 1)); lia.
Qed.

(* ------------------------------------------------------------------ *)
(** ** Buffer access lemmas *)

Lemma writeZ_ok (b : Buffer) (k : Z) (v : Ptr) :
  0 <= k < Z.of_nat (length b) -> writeZ b k v = Ok (<[Z.to_nat k := v]> b).
Proof.
  intros H. unfold writeZ.
  destruct (Z.leb_spec 0 k), (Z.ltb_spec k (Z.of_nat (length b))); simpl; try lia.
  reflexivity.
Qed.

Lemma lookupZ_insert (b : Buffer) (k x : Z) (v : Ptr) :
  0 <= k < Z.of_nat (length b) -> 0 <= x ->
  lookupZ (<[Z.to_nat k := v]> b) x = if x =? k then Some v else lookupZ b x.
Proof.
  intros Hk Hx. unfold lookupZ. destruct (Z.leb_spec 0 x); [|lia].
  destruct (Z.eqb_spec x k) as [-> | Hne].
  - apply list_lookup_insert_eq. lia.
  - apply list_lookup_insert_ne. lia.
Qed.

Lemma length_writeZ (b b' : Buffer) (k : Z) (v : Ptr) :
  writeZ b k v = Ok b' -> length b' = length b.
Proof.
  unfold writeZ. destruct (_ && _); intros H; inversion H. apply length_insert.
Qed.

Lemma lookupZ_replicate (n : nat) (x : Z) :
  0 <= x < Z.of_nat n -> lookupZ (replicate n None) x = Some None.
Proof.
  intros H. unfold lookupZ. destruct (Z.leb_spec 0 x); [|lia].
  apply lookup_replicate_2. lia.
Qed.

Lemma chase_S_r (b : Buffer) (k : nat) (p : Ptr) :
  chase b (S k) p = (p' ← chase b k p; deref b p').
Proof.
  revert p. induction k as [|k IH]; intros p; simpl.
  - destruct (deref b p); reflexivity.
  - destruct (deref b p) as [p'|e]; simpl; [|reflexivity].
    rewrite <- IH. reflexivity.
Qed.

Lemma chase_add (b : Buffer) (k m : nat) (p : Ptr) :
  chase b (k + m) p = (p' ← chase b k p; chase b m p').
Proof.
  revert p. induction k as [|k IH]; intros p; simpl; [reflexivity|].
  destruct (deref b p) as [p'|e]; simpl; [apply IH|reflexivity].
Qed.

Lemma vector_max_size_val : vector_max_size = 2^60 - 1.
Proof. reflexivity. Qed.

Lemma ll_vector_max_size_val : ll_vector_max_size = 2^60 - 1.
Proof. reflexivity. Qed.

(** The length check of [times.reserve(nTouches)]: below the bound the
    timed traversal is its loop, above it the call throws. *)
Lemma reserve_ok {A} (n : nat) (x y : result A) :
  Z.of_nat n <= ll_vector_max_size ->
  (if ll_vector_max_size <? Z.of_nat n then x else y) = y.
Proof. intros H. destruct (Z.ltb_spec ll_vector_max_size (Z.of_nat n)); [lia|reflexivity]. Qed.

Lemma reserve_fail {A} (n : nat) (x y : result A) :
  ll_vector_max_size < Z.of_nat n ->
  (if ll_vector_max_size <? Z.of_nat n then x else y) = x.
Proof. intros H. destruct (Z.ltb_spec ll_vector_max_size (Z.of_nat n)); [reflexivity|lia]. Qed.

(* ------------------------------------------------------------------ *)
(** ** Shape of the buffer built by [mkTestBuffer] for [1 <= step < size] *)

Section ChainShape.

Variables size step : Z.
Hypothesis Hstep : 1 <= step.
Hypothesis Hlt : step < size.
Hypothesis Hmax : size <= vector_max_size.

Ltac bounds := pose proof vector_max_size_val; lia.

Lemma build_loop_inv (fuel : nat) : forall (i : Z) (b : Buffer),
  0 <= i < size -> i mod step = (size - 1) mod step ->
  length b = Z.to_nat size ->
  (forall x, 0 <= x < size -> lookupZ b x = Some (cell_from size step i x)) ->
  (Z.to_nat (i / step) < fuel)%nat ->
  exists b', build_loop fuel size step i (to_ll (i - step)) b = Ok b' /\
    length b' = Z.to_nat size /\
    forall x, 0 <= x < size -> lookupZ b' x = Some (cell size step x).
Proof.
  induction fuel as [|f IH]; intros i b Hi Hmod Hlen Hb Hfuel; [lia|].
  simpl. rewrite (to_ll_id (i - step)) by bounds.
  destruct (Z.leb_spec 0 (i - step)) as [Hj | Hj].
  - rewrite writeZ_ok by lia. rewrite bind_Ok.
    rewrite writeZ_ok by (rewrite length_insert; lia). rewrite bind_Ok.
    apply IH.
    + lia.
    + rewrite mod_sub_step by lia. exact Hmod.
    + rewrite !length_insert. exact Hlen.
    + intros x Hx.
      rewrite lookupZ_insert by (rewrite ?length_insert; lia).
      rewrite lookupZ_insert by lia.
      rewrite Hb by exact Hx.
      assert (Hj' : (i - step) mod step = (size - 1) mod step)
        by (rewrite mod_sub_step by lia; exact Hmod).
      unfold cell_from.
      destruct (Z.eqb_spec x (i - step)) as [-> | Hx1].
      * rewrite Hj', ?Z.eqb_refl, ?Z.leb_refl. reflexivity.
      * destruct (Z.eqb_spec x i) as [-> | Hx2].
        -- rewrite Hmod, Z.eqb_refl.
           destruct (Z.leb_spec (i - step) i); [|lia].
           destruct (Z.eqb_spec i (i - step)); [lia|]. reflexivity.
        -- destruct (Z.eqb_spec (x mod step) ((size - 1) mod step)) as [Hxm | Hxm];
             simpl; [|reflexivity].
           destruct (Z.leb_spec i x), (Z.leb_spec (i - step) x); simpl; try lia.
           ++ destruct (Z.eqb_spec x i); [lia|].
              destruct (Z.eqb_spec x (i - step)); [lia|]. reflexivity.
           ++ exfalso. apply (mod_gap x i step); lia.
           ++ reflexivity.
    + assert (E : (i - step) / step = i / step - 1).
      { replace (i - step) with (i + (-1) * step) by ring.
        rewrite Z_div_plus_full by lia. ring. }
      assert (1 <= i / step).
      { apply Z.div_le_lower_bound; lia. }
      rewrite E. lia.
  - exists b. split; [reflexivity|]. split; [exact Hlen|].
    intros x Hx. rewrite Hb by exact Hx. f_equal.
    assert (Hi0 : i = (size - 1) mod step) by (apply mod_small_eq; lia).
    pose proof (Z.mod_pos_bound x step ltac:(lia)).
    pose proof (Z.div_mod x step ltac:(lia)).
    assert (0 <= x / step) by (apply Z.div_pos; lia).
    unfold cell_from, cell.
    destruct (Z.eqb_spec (x mod step) ((size - 1) mod step)) as [Hxm | Hxm];
      simpl; [|reflexivity].
    destruct (Z.leb_spec i x); simpl; [|nia].
    destruct (Z.eqb_spec x i), (Z.ltb_spec x step); try reflexivity.
    + lia.
    + exfalso. assert (x mod step = x) by (apply Z.mod_small; lia). lia.
Qed.

(** The buffer built by [mkTestBuffer size step], slot by slot. *)
Lemma mkTestBuffer_shape :
  exists b, mkTestBuffer size step = Ok b /\ length b = Z.to_nat size /\
    forall x, 0 <= x < size -> lookupZ b x = Some (cell size step x).
Proof.
  unfold mkTestBuffer.
  destruct (Z.ltb_spec 0 size); [|lia]. destruct (Z.ltb_spec 0 step); [|lia].
  simpl. destruct (Z.ltb_spec vector_max_size size); [lia|].
  rewrite (to_ll_id (size - 1)) by bounds.
  rewrite (to_ll_id (size - 1 - step)) by bounds.
  simpl. destruct (Z.leb_spec 0 (size - 1 - step)); [|lia].
  rewrite writeZ_ok by (rewrite length_replicate; lia). rewrite bind_Ok.
  rewrite writeZ_ok by (rewrite length_insert, length_replicate; lia). rewrite bind_Ok.
  apply build_loop_inv.
  - lia.
  - apply mod_sub_step. lia.
  - rewrite !length_insert, length_replicate. reflexivity.
  - intros x Hx.
    rewrite lookupZ_insert by (rewrite ?length_insert, ?length_replicate; lia).
    rewrite lookupZ_insert by (rewrite ?length_replicate; lia).
    rewrite lookupZ_replicate by lia.
    assert (Hj' : (size - 1 - step) mod step = (size - 1) mod step)
      by (apply mod_sub_step; lia).
    unfold cell_from.
    destruct (Z.eqb_spec x (size - 1 - step)) as [-> | Hx1].
    + rewrite Hj', ?Z.eqb_refl, ?Z.leb_refl. reflexivity.
    + destruct (Z.eqb_spec x (size - 1)) as [-> | Hx2].
      * rewrite Z.eqb_refl.
        destruct (Z.leb_spec (size - 1 - step) (size - 1)); [|lia].
        destruct (Z.eqb_spec (size - 1) (size - 1 - step)); [lia|].
        simpl. reflexivity.
      * destruct (Z.eqb_spec (x mod step) ((size - 1) mod step)) as [Hxm | Hxm];
          simpl; [|reflexivity].
        destruct (Z.leb_spec (size - 1 - step) x); simpl; [|reflexivity].
        exfalso. apply (mod_gap x (size - 1) step); lia.
  - assert ((size - 1 - step) / step <= size - 1 - step).
    { apply Z.div_le_upper_bound; nia. }
    assert (0 <= (size - 1 - step) / step) by (apply Z.div_pos; lia).
    lia.
Qed.

End ChainShape.

(* ------------------------------------------------------------------ *)
(** ** Walking the chain of a built buffer *)

Section ChainWalk.

Variables size step : Z.
Hypothesis Hstep : 1 <= step.
Hypothesis Hlt : step < size.
Hypothesis Hmax : size <= vector_max_size.

Variable b : Buffer.
Hypothesis Hlen : length b = Z.to_nat size.
Hypothesis Hb : forall x, 0 <= x < size -> lookupZ b x = Some (cell size step x).

Lemma deref_cell (x : Z) : 0 <= x < size -> deref b (Some x) = Ok (cell size step x).
Proof. intros Hx. simpl. rewrite Hb by exact Hx. reflexivity. Qed.

Lemma chain_len_ge_2 : 2 <= chain_len size step.
Proof.
  unfold chain_len. assert (1 <= (size - 1) / step) by (apply Z.div_le_lower_bound; lia).
  lia.
Qed.

(** After [k] hops from the last slot the walk stands on slot
    [size - 1 - (k mod chain_len size step) * step]. *)
Lemma chase_from_last (k : nat) :
  chase b k (Some (size - 1)) =
  Ok (Some (size - 1 - (Z.of_nat k mod chain_len size step) * step)).
Proof.
  pose proof chain_len_ge_2 as HL.
  pose proof (Z.div_mod (size - 1) step ltac:(lia)) as Hdm.
  pose proof (Z.mod_pos_bound (size - 1) step ltac:(lia)) as Hr.
  induction k as [|k IH].
  - simpl. rewrite Z.mod_0_l by lia. f_equal. f_equal. ring.
  - rewrite chase_S_r, IH, bind_Ok.
    set (m := Z.of_nat k mod chain_len size step) in *.
    assert (Hm : 0 <= m < chain_len size step) by (apply Z.mod_pos_bound; lia).
    unfold chain_len in Hm.
    rewrite deref_cell by nia.
    unfold cell. rewrite mod_sub_mul by lia. rewrite Z.eqb_refl.
    rewrite Nat2Z.inj_succ, <- Z.add_1_r, mod_succ by lia. fold m.
    destruct (Z.eqb_spec (m + 1) (chain_len size step)) as [E | E]; unfold chain_len in E.
    + assert (Em : m = (size - 1) / step) by lia. rewrite Em.
      destruct (Z.ltb_spec (size - 1 - (size - 1) / step * step) step); [|nia].
      f_equal. f_equal. ring.
    + destruct (Z.ltb_spec (size - 1 - m * step) step); [nia|].
      f_equal. f_equal. ring.
Qed.

Lemma entry_built : entry b = Ok (Some (size - 1 - step)).
Proof.
  unfold entry. rewrite Hlen, Z2Nat.id by lia.
  rewrite to_size_t_id by (pose proof vector_max_size_val; lia).
  rewrite deref_cell by lia. unfold cell.
  rewrite Z.eqb_refl. destruct (Z.ltb_spec (size - 1) step); [lia|]. reflexivity.
Qed.

Lemma chase_from_entry (k : nat) :
  chase b k (Some (size - 1 - step)) =
  Ok (Some (size - 1 - ((Z.of_nat k + 1) mod chain_len size step) * step)).
Proof.
  pose proof chain_len_ge_2 as HL.
  pose proof (chase_from_last (S k)) as H.
  change (chase b (S k) (Some (size - 1)))
    with (p' ← deref b (Some (size - 1)); chase b k p') in H.
  rewrite deref_cell in H by lia. unfold cell in H.
  rewrite Z.eqb_refl in H. destruct (Z.ltb_spec (size - 1) step); [lia|].
  rewrite bind_Ok in H. rewrite H, Nat2Z.inj_succ, <- Z.add_1_r. reflexivity.
Qed.

End ChainWalk.

(* ------------------------------------------------------------------ *)
(** ** [max_element]: the first largest element *)

Lemma fold_first_max (rest pre : list RawLevelInfo) (m : RawLevelInfo) (k : nat) :
  pre !! k = Some m ->
  (forall y, y ∈ pre -> timeNanos y <= timeNanos m) ->
  (forall y, y ∈ take k pre -> timeNanos y < timeNanos m) ->
  exists k', (pre ++ rest) !! k' =
      Some (fold_left (fun best y => if timeNanos best <? timeNanos y then y else best) rest m) /\
    (forall y, y ∈ pre ++ rest ->
       timeNanos y <= timeNanos (fold_left (fun best y => if timeNanos best <? timeNanos y then y else best) rest m)) /\
    (forall y, y ∈ take k' (pre ++ rest) ->
       timeNanos y < timeNanos (fold_left (fun best y => if timeNanos best <? timeNanos y then y else best) rest m)).
Proof.
  revert pre m k. induction rest as [|y rest IH]; intros pre m k Hk Hle Hlt.
  - exists k. rewrite app_nil_r. auto.
  - simpl. replace (pre ++ y :: rest) with ((pre ++ [y]) ++ rest) by (rewrite <- app_assoc; reflexivity).
    pose proof (lookup_lt_Some _ _ _ Hk) as Hklen.
    destruct (Z.ltb_spec (timeNanos m) (timeNanos y)) as [Hmy | Hmy].
    + apply (IH _ _ (length pre)).
      * apply list_lookup_middle. reflexivity.
      * intros z Hz. apply elem_of_app in Hz as [Hz | Hz].
        -- specialize (Hle z Hz). lia.
        -- apply list_elem_of_singleton in Hz. subst. lia.
      * rewrite take_app_length. intros z Hz. specialize (Hle z Hz). lia.
    + apply (IH _ _ k).
      * rewrite lookup_app_l by lia. exact Hk.
      * intros z Hz. apply elem_of_app in Hz as [Hz | Hz].
        -- auto.
        -- apply list_elem_of_singleton in Hz. subst. lia.
      * rewrite take_app_le by lia. exact Hlt.
Qed.

Lemma maxElement_spec (ws : list RawLevelInfo) (m : RawLevelInfo) :
  maxElement ws = Ok m ->
  exists k, ws !! k = Some m /\
    (forall k' y, ws !! k' = Some y -> timeNanos y <= timeNanos m) /\
    (forall k' y, (k' < k)%nat -> ws !! k' = Some y -> timeNanos y < timeNanos m).
Proof.
  destruct ws as [|x rest]; simpl; intros H; [discriminate|]. injection H as <-.
  destruct (fold_first_max rest [x] x 0) as (k & Hk & Hle & Hlt).
  - reflexivity.
  - intros y Hy. apply list_elem_of_singleton in Hy. subst. lia.
  - intros y Hy. simpl in Hy. apply elem_of_nil in Hy as [].
  - exists k. split; [exact Hk|]. split.
    + intros k' y Hy. apply Hle. eapply list_elem_of_lookup_2. exact Hy.
    + intros k' y Hk' Hy. apply Hlt. eapply list_elem_of_lookup_2.
      rewrite lookup_take_lt by exact Hk'. exact Hy.
Qed.

Lemma maxElement_nonempty (ws : list RawLevelInfo) :
  ws <> [] -> exists m, maxElement ws = Ok m.
Proof. destruct ws; [congruence|]. intros _. eexists. reflexivity. Qed.

(* ------------------------------------------------------------------ *)
(** ** Differences and windowed sums of [selectCacheSize] *)

Lemma ll_add_ok (a b : Z) : - 2^63 <= a + b < 2^63 -> ll_add a b = Ok (a + b).
Proof.
  intros H. unfold ll_add, in_ll.
  destruct (Z.leb_spec (- 2^63) (a + b)), (Z.ltb_spec (a + b) (2^63)); simpl; try lia.
  reflexivity.
Qed.

Lemma ll_sub_ok (a b : Z) : - 2^63 <= a - b < 2^63 -> ll_sub a b = Ok (a - b).
Proof.
  intros H. unfold ll_sub, in_ll.
  destruct (Z.leb_spec (- 2^63) (a - b)), (Z.ltb_spec (a - b) (2^63)); simpl; try lia.
  reflexivity.
Qed.

Lemma timeAt_cons (x : RawLevelInfo) (r : list RawLevelInfo) (k : Z) :
  0 <= k -> timeAt (x :: r) (k + 1) = timeAt r k.
Proof. intros Hk. unfold timeAt. rewrite Z2Nat.inj_add by lia. rewrite Nat.add_1_r. reflexivity. Qed.

Lemma sizeAt_cons (x : RawLevelInfo) (r : list RawLevelInfo) (k : Z) :
  0 <= k -> sizeAt (x :: r) (k + 1) = sizeAt r k.
Proof. intros Hk. unfold sizeAt. rewrite Z2Nat.inj_add by lia. rewrite Nat.add_1_r. reflexivity. Qed.

Lemma small_times_cons (x : RawLevelInfo) (r : list RawLevelInfo) :
  small_times (x :: r) -> small_times r.
Proof. intros H y Hy. apply H. apply elem_of_cons. right. exact Hy. Qed.

Lemma small_timeAt (infos : list RawLevelInfo) (k : Z) :
  small_times infos -> - 2^60 < timeAt infos k < 2^60.
Proof.
  intros H. unfold timeAt. destruct (infos !! Z.to_nat k) as [x|] eqn:E; [|lia].
  apply H. eapply list_elem_of_lookup_2. exact E.
Qed.

Lemma mkDiffs_ok (infos : list RawLevelInfo) :
  small_times infos ->
  exists ds, mkDiffs infos = Ok ds /\ length ds = pred (length infos) /\
    forall l, 0 <= l < Z.of_nat (length infos) - 1 ->
      ds !! Z.to_nat l = Some (mkInfo (sizeAt infos (l + 1)) (timeAt infos (l + 1) - timeAt infos l)).
Proof.
  induction infos as [|x rest IH]; intros Hs.
  - exists []. split; [reflexivity|]. split; [reflexivity|]. simpl. lia.
  - destruct rest as [|y rest'].
    + exists []. split; [reflexivity|]. split; [reflexivity|]. simpl. lia.
    + destruct (IH (small_times_cons _ _ Hs)) as (ds & Hds & Hlen & Hl).
      assert (Hx := Hs x ltac:(apply elem_of_cons; left; reflexivity)).
      assert (Hy := Hs y ltac:(apply elem_of_cons; right; apply elem_of_cons; left; reflexivity)).
      exists (mkInfo (arraySizeBytes y) (timeNanos y - timeNanos x) :: ds).
      split.
      { cbn [mkDiffs]. rewrite ll_sub_ok by lia. rewrite bind_Ok.
        cbn [mkDiffs] in Hds. rewrite Hds. reflexivity. }
      split; [simpl in *; lia|].
      intros l Hl'. destruct (Z.eqb_spec l 0) as [-> | Hl0].
      * reflexivity.
      * replace (Z.to_nat l) with (S (Z.to_nat (l - 1))) by lia. simpl.
        assert (E1 : timeAt (x :: y :: rest') (l + 1) = timeAt (y :: rest') l)
          by (apply timeAt_cons; lia).
        assert (E2 : timeAt (x :: y :: rest') l = timeAt (y :: rest') (l - 1))
          by (replace l with (l - 1 + 1) at 1 by ring; apply timeAt_cons; lia).
        assert (E3 : sizeAt (x :: y :: rest') (l + 1) = sizeAt (y :: rest') l)
          by (apply sizeAt_cons; lia).
        rewrite E1, E2, E3, Hl by (simpl in Hl' |- *; lia).
        replace (l - 1 + 1) with l by ring. reflexivity.
Qed.

Section Windows.

Variable ds : list RawLevelInfo.
Variables F G : Z -> Z.
Hypothesis Hds : forall l, 0 <= l < Z.of_nat (length ds) ->
  ds !! Z.to_nat l = Some (mkInfo (G l) (F (l + 1) - F l)).

Lemma elementAt_ok (l : Z) : 0 <= l < Z.of_nat (length ds) ->
  elementAt ds l = Ok (mkInfo (G l) (F (l + 1) - F l)).
Proof.
  intros Hl. unfold elementAt. destruct (Z.leb_spec 0 l); [|lia].
  rewrite Hds by exact Hl. reflexivity.
Qed.

Lemma window_inner_ok (i : Z) (fuel : nat) : forall j sum,
  0 <= j <= i -> i <= Z.of_nat (length ds) -> (Z.to_nat (i - j) < fuel)%nat ->
  (forall m, j < m <= i -> - 2^63 <= sum + F m - F j < 2^63) ->
  window_inner fuel ds i j sum = Ok (sum + F i - F j).
Proof.
  induction fuel as [|f IH]; intros j sum Hj Hi Hfuel Hb; [lia|].
  simpl. destruct (Z.ltb_spec j i) as [Hji | Hji].
  - rewrite elementAt_ok by lia. rewrite bind_Ok. simpl.
    rewrite ll_add_ok by (specialize (Hb (j + 1)); lia). rewrite bind_Ok.
    rewrite IH.
    + f_equal. ring.
    + lia.
    + lia.
    + lia.
    + intros m Hm. specialize (Hb m ltac:(lia)). lia.
  - f_equal. assert (j = i) by lia. subst. ring.
Qed.

Variable w : Z.
Hypothesis Hw : 2 <= w.
Hypothesis Hn : 2 <= Z.of_nat (length ds) < 2^63.
Hypothesis HF : forall l, - 2^60 < F l < 2^60.

Lemma window_outer_ok (fuel : nat) : forall i acc,
  w - 1 <= i -> (Z.to_nat (Z.of_nat (length ds) - 2 - i) < fuel)%nat ->
  window_outer fuel ds w i acc =
  Ok (acc ++ map (fun k => mkInfo (G k) (F (k + 1) - F (k + 1 - w)))
                 (seqZ i (Z.of_nat (length ds) - 2 - i))).
Proof.
  pose proof Hw. pose proof Hn.
  induction fuel as [|f IH]; intros i acc Hi Hfuel; [lia|].
  cbn [window_outer]. rewrite (to_size_t_id (_ - 2)) by lia.
  destruct (Z.ltb_spec i (Z.of_nat (length ds) - 2)) as [Hlt | Hge].
  - rewrite (elementAt_ok i) by lia. rewrite bind_Ok. cbn [timeNanos arraySizeBytes].
    rewrite (to_size_t_id (i + 1 - w)) by lia.
    rewrite (window_inner_ok i) by
      (try lia; intros m Hm; pose proof (HF m); pose proof (HF (i + 1)); pose proof (HF i);
       pose proof (HF (i + 1 - w)); lia).
    rewrite bind_Ok. rewrite IH by lia.
    rewrite (seqZ_cons i) by lia. simpl. rewrite <- app_assoc. simpl.
    do 4 f_equal; [ring|].
    f_equal. lia.
  - rewrite seqZ_nil by lia. simpl. rewrite app_nil_r. reflexivity.
Qed.

Lemma windowed_ok :
  windowed ds w =
  Ok (map (fun k => mkInfo (G k) (F (k + 1) - F (k + 1 - w)))
          (seqZ (w - 1) (Z.of_nat (length ds) - 1 - w))).
Proof.
  pose proof Hw. pose proof Hn.
  unfold windowed. rewrite window_outer_ok by lia.
  simpl. do 3 f_equal. lia.
Qed.

End Windows.

(** [selectCacheSize] in closed form, for at least three points. *)
Lemma select_windowed (infos : list RawLevelInfo) (w : Z) :
  2 <= w -> 3 <= Z.of_nat (length infos) < 2^63 -> small_times infos ->
  exists ds, mkDiffs infos = Ok ds /\
    windowed ds w = Ok (map (winEntry infos w) (seqZ (w - 1) (Z.of_nat (length infos) - w - 2))) /\
    selectCacheSize infos w =
      (m ← maxElement (map (winEntry infos w) (seqZ (w - 1) (Z.of_nat (length infos) - w - 2)));
       Ok (arraySizeBytes m)).
Proof.
  intros Hw Hn Hs.
  destruct (mkDiffs_ok infos Hs) as (ds & Hds & Hlen & Hl).
  assert (Hwin : windowed ds w =
    Ok (map (winEntry infos w) (seqZ (w - 1) (Z.of_nat (length infos) - w - 2)))).
  { rewrite (windowed_ok ds (timeAt infos) (fun l => sizeAt infos (l + 1))).
    - unfold winEntry. do 2 f_equal. f_equal. lia.
    - intros l Hl'. rewrite Hl by lia. reflexivity.
    - lia.
    - lia.
    - intros l. apply small_timeAt. exact Hs. }
  exists ds. split; [exact Hds|]. split; [exact Hwin|].
  unfold selectCacheSize. destruct (Z.ltb_spec w 2); [lia|].
  rewrite Hds, bind_Ok, Hwin, bind_Ok. reflexivity.
Qed.

(** With at least [windowSize + 3] points the selected size is the size of
    a probed point [k] with [windowSize <= k <= n - 3], and it is the size
    at the first maximum of the windowed series. *)
Lemma select_first_max (infos : list RawLevelInfo) (w : Z) :
  2 <= w -> w + 3 <= Z.of_nat (length infos) < 2^63 -> small_times infos ->
  exists k, w - 1 <= k <= Z.of_nat (length infos) - 4 /\
    selectCacheSize infos w = Ok (sizeAt infos (k + 1)) /\
    (forall k', w - 1 <= k' <= Z.of_nat (length infos) - 4 ->
       timeNanos (winEntry infos w k') <= timeNanos (winEntry infos w k)) /\
    (forall k', w - 1 <= k' < k ->
       timeNanos (winEntry infos w k') < timeNanos (winEntry infos w k)).
Proof.
  intros Hw Hn Hs.
  destruct (select_windowed infos w Hw ltac:(lia) Hs) as (ds & _ & _ & Hsel).
  set (ws := map (winEntry infos w) (seqZ (w - 1) (Z.of_nat (length infos) - w - 2))) in *.
  assert (Hne : ws <> []).
  { unfold ws. rewrite seqZ_cons by lia. simpl. congruence. }
  destruct (maxElement_nonempty ws Hne) as [m Hm].
  destruct (maxElement_spec ws m Hm) as (i & Hi & Hle & Hlt).
  assert (Hlook : forall j, ws !! j =
     if decide (Z.of_nat j < Z.of_nat (length infos) - w - 2)
     then Some (winEntry infos w (w - 1 + Z.of_nat j)) else None).
  { intros j. unfold ws. rewrite list_lookup_fmap. case_decide.
    - rewrite lookup_seqZ_lt by lia. reflexivity.
    - rewrite lookup_seqZ_ge by lia. reflexivity. }
  rewrite Hlook in Hi. case_decide as Hi'; [|discriminate]. injection Hi as <-.
  exists (w - 1 + Z.of_nat i). split; [lia|]. split.
  { rewrite Hsel, Hm, bind_Ok. reflexivity. }
  split.
  - intros k' Hk'. apply (Hle (Z.to_nat (k' - (w - 1)))).
    rewrite Hlook. case_decide; [|lia]. do 2 f_equal. lia.
  - intros k' Hk'. apply (Hlt (Z.to_nat (k' - (w - 1)))); [lia|].
    rewrite Hlook. case_decide; [|lia]. do 2 f_equal. lia.
Qed.

(* ------------------------------------------------------------------ *)
(** ** Traversals *)

(** On a built buffer with [1 <= step < size] no traversal faults. *)
Lemma touch_built_ok (size step : Z) (b : Buffer) (n : nat) :
  1 <= step < size -> size <= vector_max_size ->
  length b = Z.to_nat size ->
  (forall x, 0 <= x < size -> lookupZ b x = Some (cell size step x)) ->
  exists p, touchTestBuffer b n = Ok (Some p).
Proof.
  intros Hs Hmax Hlen Hb.
  pose proof (chain_len_ge_2 size step ltac:(lia) ltac:(lia) b Hlen) as HL.
  unfold touchTestBuffer.
  rewrite (entry_built size step) by (try lia; assumption). rewrite bind_Ok.
  rewrite (chase_from_entry size step) by (try lia; assumption). rewrite bind_Ok.
  pose proof (Z.mod_pos_bound (Z.of_nat n + 1) (chain_len size step) ltac:(lia)) as Hm.
  set (m := (Z.of_nat n + 1) mod chain_len size step) in *.
  unfold chain_len in Hm.
  pose proof (Z.div_mod (size - 1) step ltac:(lia)).
  pose proof (Z.mod_pos_bound (size - 1) step ltac:(lia)).
  assert (m * step <= (size - 1) / step * step) by (apply Z.mul_le_mono_nonneg_r; lia).
  rewrite (deref_cell size step b Hb) by nia.
  unfold cell. rewrite mod_sub_mul by lia. rewrite Z.eqb_refl.
  destruct (_ <? _); eexists; reflexivity.
Qed.

Lemma timed_loop_spec (clk : nat -> Z) (b : Buffer) :
  clock_ok clk ->
  forall n c pos times,
  match chase b n pos with
  | Ok p => exists ts, timed_loop clk b n c pos times = Ok (times ++ ts, p, (c + 2 * n)%nat) /\
                       length ts = n
  | Err e => timed_loop clk b n c pos times = Err e
  end.
Proof.
  intros Hclk. induction n as [|n IH]; intros c pos times.
  - exists []. rewrite app_nil_r, Nat.add_0_r. split; reflexivity.
  - cbn [chase timed_loop]. destruct (deref b pos) as [p'|e]; [|reflexivity].
    rewrite !bind_Ok. rewrite ll_sub_ok by (specialize (Hclk c); lia). rewrite bind_Ok.
    specialize (IH (S (S c)) p' (times ++ [clk (S c) - clk c])).
    destruct (chase b n p') as [p|e].
    + destruct IH as (ts & Hts & Hlen). exists (clk (S c) - clk c :: ts).
      rewrite Hts, <- app_assoc. split; [|simpl; lia].
      replace (S (S c) + 2 * n)%nat with (c + 2 * S n)%nat by lia. reflexivity.
    + exact IH.
Qed.

(* ------------------------------------------------------------------ *)
(** ** Probing rounds *)

(** Case analysis on the first computation of a [≫=] chain in hypothesis [H]. *)
Ltac bind_case H :=
  match type of H with
  | context [mbind _ ?m] =>
      let E := fresh "E" in
      destruct m eqn:E;
      [rewrite bind_Ok in H; cbv beta iota in H | rewrite bind_Err in H; discriminate H]
  end.

Tactic Notation "bind_case_as" hyp(H) simple_intropattern(pat) :=
  match type of H with
  | context [mbind _ ?m] =>
      let E := fresh "E" in
      let x := fresh "x" in
      destruct m as [x|?] eqn:E;
      [rewrite bind_Ok in H; clear E; revert H; revert x; intros pat H; cbv beta iota in H
      | rewrite bind_Err in H; discriminate H]
  end.

Lemma roundStride_bounds (size : Z) : 2 <= size -> 1 <= roundStride size < size.
Proof.
  intros Hs. unfold roundStride, nTouches.
  assert (size / 1000000 < size) by (apply Z.div_lt; lia).
  lia.
Qed.

(** A round on [2 <= size <= vector_max_size] slots always succeeds and
    records [size * 8] bytes with the elapsed time of the second traversal. *)
Lemma probeRound_ok (clk : nat -> Z) (size : Z) (c : nat) :
  clock_ok clk -> 2 <= size <= vector_max_size ->
  probeRound clk size c = Ok (mkInfo (size * ptr_size) (clk (S c) - clk c), S (S c)).
Proof.
  intros Hclk Hs. pose proof (roundStride_bounds size ltac:(lia)) as Hr.
  pose proof vector_max_size_val.
  destruct (mkTestBuffer_shape size (roundStride size) ltac:(lia) ltac:(lia) ltac:(lia))
    as (b & Hb & Hlen & Hcells).
  destruct (touch_built_ok size (roundStride size) b (Z.to_nat nTouches)
              ltac:(lia) ltac:(lia) Hlen Hcells) as [p Hp].
  unfold probeRound. rewrite Hb, bind_Ok, Hp, !bind_Ok.
  rewrite ll_sub_ok by (specialize (Hclk c); lia). rewrite bind_Ok.
  unfold ptr_size. rewrite to_size_t_id by lia. reflexivity.
Qed.

(** The loop of [tryCacheLevelSizes] from [size]: one record per size
    [size + j * sizeStep <= maxSize], in order. *)
Lemma levels_loop_ok (clk : nat -> Z) (maxSize sizeStep : Z) :
  clock_ok clk -> 1 <= sizeStep <= vector_max_size -> maxSize <= vector_max_size ->
  forall fuel size c acc, 2 <= size ->
  (Z.to_nat ((maxSize - size) / sizeStep + 1) < fuel)%nat ->
  exists infos c', levels_loop clk fuel maxSize sizeStep size c acc = Ok (acc ++ infos, c') /\
    length infos = Z.to_nat ((maxSize - size) / sizeStep + 1) /\
    (forall j x, infos !! j = Some x ->
       arraySizeBytes x = (size + Z.of_nat j * sizeStep) * ptr_size) /\
    small_times infos.
Proof.
  intros Hclk Hst Hmax. pose proof vector_max_size_val.
  induction fuel as [|f IH]; intros size c acc Hs Hf; [lia|].
  cbn [levels_loop]. destruct (Z.leb_spec size maxSize) as [Hle | Hgt].
  - rewrite probeRound_ok by (try exact Hclk; lia). rewrite bind_Ok. cbv beta iota.
    rewrite to_size_t_id by lia.
    assert (Hq : (maxSize - (size + sizeStep)) / sizeStep + 1 = (maxSize - size) / sizeStep).
    { replace (maxSize - (size + sizeStep)) with (maxSize - size + (-1) * sizeStep) by ring.
      rewrite Z_div_plus_full by lia. ring. }
    assert (Hq0 : 0 <= (maxSize - size) / sizeStep) by (apply Z.div_pos; lia).
    destruct (IH (size + sizeStep) (S (S c)) (acc ++ [mkInfo (size * ptr_size) (clk (S c) - clk c)])
                ltac:(lia) ltac:(rewrite Hq; lia)) as (infos & c' & Hl & Hlen & Hsz & Hsm).
    exists (mkInfo (size * ptr_size) (clk (S c) - clk c) :: infos), c'.
    rewrite Hl, <- app_assoc. split; [reflexivity|].
    split; [simpl; rewrite Hlen, Hq; lia|]. split.
    + intros [|j] x Hx.
      * simpl in Hx. injection Hx as <-. simpl. lia.
      * simpl in Hx. rewrite (Hsz j x Hx). rewrite Nat2Z.inj_succ. nia.
    + intros y Hy. apply elem_of_cons in Hy as [-> | Hy].
      * simpl. apply Hclk.
      * apply Hsm. exact Hy.
  - exists [], c. rewrite app_nil_r. split; [reflexivity|].
    assert ((maxSize - size) / sizeStep < 0) by (apply Z.div_lt_upper_bound; lia).
    split; [simpl; lia|]. split.
    + intros j x Hx. rewrite lookup_nil in Hx. discriminate.
    + intros y Hy. apply elem_of_nil in Hy. contradiction.
Qed.

(* ------------------------------------------------------------------ *)
(** ** The line-size loop *)

Lemma mkTestBuffer_Ok_bound (size step : Z) (b : Buffer) :
  mkTestBuffer size step = Ok b -> 0 < size <= vector_max_size /\ 0 < step.
Proof.
  unfold mkTestBuffer. intros H.
  destruct (Z.ltb_spec 0 size), (Z.ltb_spec 0 step); simpl in H; try discriminate.
  destruct (Z.ltb_spec vector_max_size size); [discriminate|lia].
Qed.

(** Every value returned by the line-size loop started on a stride
    [1 <= step < 2^61] is at least [sizeof(void* )]. *)
Lemma line_loop_ge (clk : nat -> Z) (size : Z) :
  forall fuel step last c r c', 1 <= step < 2^61 ->
  line_loop clk fuel size step last c = Ok (r, c') -> ptr_size <= r.
Proof.
  pose proof vector_max_size_val as Hv.
  induction fuel as [|f IH]; intros step last c r c' Hs H; [discriminate|].
  cbn [line_loop] in H. destruct (Z.ltb_spec step size) as [Hlt | Hge].
  - bind_case H. apply mkTestBuffer_Ok_bound in E as [Hsz _].
    bind_case_as H [[times p] c1]. bind_case H. bind_case_as H mx.
    destruct (negb (last =? LLONG_MAX) && (mx <? Z.quot last 10)).
    + injection H as <- _. unfold ptr_size. rewrite to_size_t_id by lia. lia.
    + eapply IH; [|exact H]. rewrite to_size_t_id by lia. lia.
  - injection H as <- _. unfold ptr_size. rewrite to_size_t_id by lia. lia.
Qed.

(* ------------------------------------------------------------------ *)
(** ** Which faults a computation can end in *)

Lemma no_assert_Ok {A} (a : A) : no_assert (Ok a).
Proof. unfold no_assert. congruence. Qed.

Lemma no_assert_Err {A} (e : fault) : e <> AssertFailure -> no_assert (Err (A:=A) e).
Proof. unfold no_assert. congruence. Qed.

Lemma no_assert_bind {A B} (m : result A) (f : A -> result B) :
  no_assert m -> (forall a, no_assert (f a)) -> no_assert (m ≫= f).
Proof.
  intros Hm Hf. destruct m as [a|e]; [rewrite bind_Ok; apply Hf | rewrite bind_Err; unfold no_assert in *; congruence].
Qed.

Create HintDb noassert.
#[local] Hint Resolve no_assert_Ok no_assert_bind : noassert.
#[local] Hint Extern 1 (no_assert (Err _)) => apply no_assert_Err; discriminate : noassert.
#[local] Hint Extern 2 (no_assert (if ?c then _ else _)) => destruct c : noassert.
#[local] Hint Extern 2 (no_assert (match ?x with _ => _ end)) => destruct x : noassert.

Lemma na_writeZ b k v : no_assert (writeZ b k v).
Proof. unfold writeZ. eauto with noassert. Qed.

Lemma na_ll_add a b : no_assert (ll_add a b).
Proof. unfold ll_add. eauto with noassert. Qed.

Lemma na_ll_sub a b : no_assert (ll_sub a b).
Proof. unfold ll_sub. eauto with noassert. Qed.

Lemma na_elementAt ds k : no_assert (elementAt ds k).
Proof. unfold elementAt. eauto with noassert. Qed.

Lemma na_maxElement ws : no_assert (maxElement ws).
Proof. unfold maxElement. eauto with noassert. Qed.

#[local] Hint Resolve na_writeZ na_ll_add na_ll_sub na_elementAt na_maxElement : noassert.

Lemma na_build_loop fuel : forall size step i j b, no_assert (build_loop fuel size step i j b).
Proof. induction fuel; intros; simpl; eauto with noassert. Qed.

Lemma na_mkDiffs infos : no_assert (mkDiffs infos).
Proof.
  induction infos as [|x [|y r] IH]; simpl; eauto with noassert.
Qed.

Lemma na_window_inner fuel : forall ds i j sum, no_assert (window_inner fuel ds i j sum).
Proof. induction fuel; intros; simpl; eauto with noassert. Qed.

Lemma na_window_outer fuel : forall ds w i acc, no_assert (window_outer fuel ds w i acc).
Proof.
  induction fuel; intros; cbn [window_outer]; [eauto with noassert|].
  destruct (_ <? _); eauto using na_window_inner with noassert.
Qed.

(** [mkTestBuffer] fails its assertion exactly when [size > 0 && step > 0] is false. *)
Lemma mkTestBuffer_assert (size step : Z) :
  mkTestBuffer size step = Err AssertFailure <-> ~ (0 < size /\ 0 < step).
Proof.
  unfold mkTestBuffer.
  destruct (Z.ltb_spec 0 size) as [H1|H1], (Z.ltb_spec 0 step) as [H2|H2]; cbn [andb];
    try (split; [intros _; lia | reflexivity]).
  destruct (vector_max_size <? size); [split; [discriminate | lia]|].
  split; [intros Ha; exfalso; exact (na_build_loop _ _ _ _ _ _ Ha) | lia].
Qed.

(** [selectCacheSize] fails its assertion exactly when [windowSize < 2]. *)
Lemma selectCacheSize_assert (infos : list RawLevelInfo) (w : Z) :
  selectCacheSize infos w = Err AssertFailure <-> w < 2.
Proof.
  unfold selectCacheSize. destruct (Z.ltb_spec w 2); [split; [lia | reflexivity]|].
  split; [|lia]. intros Ha. exfalso. revert Ha. fold (no_assert (A:=Z)
    (ds ← mkDiffs infos; ws ← windowed ds w; m ← maxElement ws; Ok (arraySizeBytes m))).
  apply no_assert_bind; [apply na_mkDiffs|]. intros ds.
  apply no_assert_bind; [apply na_window_outer|]. intros ws.
  eauto with noassert.
Qed.

(* ------------------------------------------------------------------ *)
(** ** Degenerate buffers *)

(** With [size <= step] the first [j = size - 1 - step] is negative as a
    [long long] (as long as it does not wrap past [2^63]): no link is
    written. *)
Lemma mkTestBuffer_degenerate (size step : Z) :
  0 < size <= vector_max_size -> size <= step <= 2^63 + size - 1 ->
  mkTestBuffer size step = Ok (replicate (Z.to_nat size) None).
Proof.
  intros Hs Hst. pose proof vector_max_size_val. unfold mkTestBuffer.
  destruct (Z.ltb_spec 0 size), (Z.ltb_spec 0 step); try lia. cbn [andb].
  destruct (Z.ltb_spec vector_max_size size); [lia|].
  rewrite (to_ll_id (size - 1 - step)) by lia. cbn [build_loop].
  destruct (Z.leb_spec 0 (size - 1 - step)); [lia|reflexivity].
Qed.

Lemma entry_null (size : Z) :
  0 < size <= vector_max_size -> entry (replicate (Z.to_nat size) None) = Ok None.
Proof.
  intros Hs. pose proof vector_max_size_val. unfold entry.
  rewrite length_replicate, Z2Nat.id by lia. rewrite to_size_t_id by lia.
  cbn [deref]. rewrite lookupZ_replicate by lia. reflexivity.
Qed.

Lemma chase_null (b : Buffer) (n : nat) :
  chase b n None = Ok None \/ chase b n None = Err NullDeref.
Proof. destruct n; [left | right]; reflexivity. Qed.

Lemma touch_null (size : Z) (n : nat) :
  0 < size <= vector_max_size -> touchTestBuffer (replicate (Z.to_nat size) None) n = Err NullDeref.
Proof.
  intros Hs. unfold touchTestBuffer. rewrite entry_null by exact Hs. rewrite bind_Ok.
  destruct (chase_null (replicate (Z.to_nat size) None) n) as [-> | ->]; reflexivity.
Qed.

Lemma touchTimed_null (clk : nat -> Z) (size : Z) (n c : nat) :
  0 < size <= vector_max_size -> Z.of_nat n <= ll_vector_max_size ->
  touchTestBufferTimed clk (replicate (Z.to_nat size) None) n c = Err NullDeref.
Proof.
  intros Hs Hn. unfold touchTestBufferTimed. rewrite entry_null by exact Hs. rewrite bind_Ok.
  rewrite reserve_ok by exact Hn. destruct n; reflexivity.
Qed.

(** Above [max_size()] the timed traversal throws in [times.reserve], once
    the entry slot has been read. *)
Lemma touchTimed_reserve (clk : nat -> Z) (b : Buffer) (n c : nat) :
  ll_vector_max_size < Z.of_nat n ->
  touchTestBufferTimed clk b n c = Err (match entry b with Ok _ => LengthError | Err e => e end).
Proof.
  intros Hn. unfold touchTestBufferTimed.
  destruct (entry b) as [p|e]; [rewrite bind_Ok, reserve_fail by exact Hn|]; reflexivity.
Qed.

(* ------------------------------------------------------------------ *)
(** ** The probing range of [main] *)

(** [tryCacheLevelSizes(8 * KB, 256 * KB)]: 1024-slot buffers up to 32768
    slots, one record per size. *)
Lemma levels_main (clk : nat -> Z) (c : nat) :
  clock_ok clk ->
  exists infos c', tryCacheLevelSizes clk (8 * 1024) (256 * 1024) c = Ok (infos, c') /\
    length infos = 32%nat /\
    (forall j x, infos !! j = Some x -> arraySizeBytes x = 8192 * (Z.of_nat j + 1)) /\
    small_times infos.
Proof.
  intros Hclk. pose proof vector_max_size_val. unfold tryCacheLevelSizes.
  assert (Hv : ptr_size = 8) by reflexivity.
  assert (Hmin : (8 * 1024) / ptr_size = 1024) by reflexivity.
  assert (Hmax : (256 * 1024) / ptr_size = 32768) by reflexivity.
  assert (H1 : 1 <= (8 * 1024) / ptr_size <= vector_max_size) by (rewrite Hmin; lia).
  assert (H2 : (256 * 1024) / ptr_size <= vector_max_size) by (rewrite Hmax; lia).
  assert (H3 : 2 <= (8 * 1024) / ptr_size) by (rewrite Hmin; lia).
  assert (H4 : (Z.to_nat (((256 * 1024) / ptr_size - (8 * 1024) / ptr_size) / ((8 * 1024) / ptr_size) + 1)
                < S (S (Z.to_nat ((256 * 1024) / ptr_size))))%nat)
    by (apply Nat.ltb_lt; vm_compute; reflexivity).
  destruct (levels_loop_ok clk _ _ Hclk H1 H2 _ _ c [] H3 H4)
    as (infos & c' & Hl & Hlen & Hsz & Hsm).
  rewrite Hmax, Hmin in Hlen. rewrite Hmin in Hsz.
  exists infos, c'. rewrite Hl. split; [reflexivity|]. split; [rewrite Hlen; reflexivity|].
  split; [|exact Hsm].
  intros j x Hx. rewrite (Hsz j x Hx), Hv. lia.
Qed.

Lemma small_times_b_ok (infos : list RawLevelInfo) :
  small_times_b infos = true -> small_times infos.
Proof.
  unfold small_times_b. intros H x Hx. rewrite forallb_forall in H.
  apply list_elem_of_In in Hx. specialize (H x Hx).
  apply andb_true_iff in H as [H1 H2]. apply Z.ltb_lt in H1, H2. lia.
Qed.

(* ================================================================== *)
(** * Properties of the program *)

(** C1 (amended). For [1 <= step < size <= vector_max_size] the buffer
    built by [mkTestBuffer size step] links only the
    [L = (size - 1) / step + 1] slots congruent to [size - 1] modulo
    [step]: the walk from the last slot is on slot
    [size - 1 - (k mod L) * step] after [k] hops, it is back on the last
    slot after [L] hops and not earlier, every other slot holds null, and
    the chain covers all [size] slots exactly when [step = 1]. *)
Theorem mkTestBuffer_chain (size step : Z) :
  1 <= step < size -> size <= vector_max_size ->
  exists b, mkTestBuffer size step = Ok b /\
    (forall k : nat, chase b k (Some (size - 1)) =
       Ok (Some (size - 1 - (Z.of_nat k mod chain_len size step) * step))) /\
    (forall k : nat, 0 < Z.of_nat k < chain_len size step ->
       chase b k (Some (size - 1)) <> Ok (Some (size - 1))) /\
    (forall x, 0 <= x < size -> x mod step <> (size - 1) mod step -> lookupZ b x = Some None) /\
    (chain_len size step = size <-> step = 1).
Proof.
  intros Hs Hmax.
  destruct (mkTestBuffer_shape size step ltac:(lia) ltac:(lia) Hmax) as (b & Hb & Hlen & Hcells).
  pose proof (chase_from_last size step ltac:(lia) ltac:(lia) b Hlen Hcells) as Hch.
  exists b. split; [exact Hb|]. split; [exact Hch|]. split; [|split].
  - intros k Hk. rewrite Hch, Z.mod_small by lia. intros Heq. injection Heq as Heq. nia.
  - intros x Hx Hne. rewrite Hcells by exact Hx. unfold cell.
    destruct (Z.eqb_spec (x mod step) ((size - 1) mod step)); [contradiction | reflexivity].
  - unfold chain_len. split.
    + intros Heq. pose proof (Z.mul_div_le (size - 1) step ltac:(lia)). nia.
    + intros ->. rewrite Z.div_1_r. ring.
Qed.

Lemma mkTestBuffer_chain_witness :
  (1 <= 1 < 4 /\ 4 <= vector_max_size) /\
  exists b, mkTestBuffer 4 1 = Ok b /\ chain_len 4 1 = 4.
Proof.
  split; [split; [lia | vm_compute; discriminate]|].
  destruct (mkTestBuffer_chain 4 1 ltac:(lia) ltac:(vm_compute; discriminate))
    as (b & Hb & _ & _ & _ & [_ Hone]).
  exists b. split; [exact Hb | apply Hone; reflexivity].
Defined.

(** C1 counterexample: [size = 3], [step = 2]. Three hops from the last
    slot end on slot 0, not on the last slot, and slot 1 is never linked. *)
Lemma mkTestBuffer_3_2_partial :
  match mkTestBuffer 3 2 with
  | Ok b => chase b 3 (Some 2) = Ok (Some 0) /\ lookupZ b 1 = Some None
  | Err _ => False
  end.
Proof. vm_compute. split; reflexivity. Qed.

(** [long long] conversion of a value that wrapped below [-2^63]. *)
Lemma to_ll_wrap (x : Z) : - 2^64 <= x < - 2^63 -> to_ll x = x + 2^64.
Proof.
  intros Hx. unfold to_ll. cbv zeta.
  rewrite <- (Z.mod_unique x (2^64) (-1) (x + 2^64)) by lia.
  destruct (Z.ltb_spec (x + 2^64) (2^63)); [reflexivity | lia].
Qed.

(** A stride [2^63 + size <= step < 2^64]: [size - 1 - step] wraps to
    [size - 1 - step + 2^64], a nonnegative index past the end; the first
    write [buffer[size - 1]] succeeds, the second one is out of bounds. *)
Lemma mkTestBuffer_wrap_oob (size step : Z) :
  0 < size <= vector_max_size -> 2^63 + size <= step < 2^64 ->
  mkTestBuffer size step = Err OutOfBounds.
Proof.
  intros H1 H2. pose proof vector_max_size_val. unfold mkTestBuffer.
  destruct (Z.ltb_spec 0 size), (Z.ltb_spec 0 step); try lia. cbn [andb].
  destruct (Z.ltb_spec vector_max_size size); [lia|].
  rewrite (to_ll_id (size - 1)) by lia.
  rewrite (to_ll_wrap (size - 1 - step)) by lia.
  cbn [build_loop]. destruct (Z.leb_spec 0 (size - 1 - step + 2^64)); [|lia].
  rewrite writeZ_ok by (rewrite length_replicate; lia). rewrite bind_Ok.
  unfold writeZ. rewrite length_insert, length_replicate.
  destruct (Z.leb_spec 0 (size - 1 - step + 2^64));
    destruct (Z.ltb_spec (size - 1 - step + 2^64) (Z.of_nat (Z.to_nat size))); try lia.
  reflexivity.
Qed.

(** C10 (amended). Let [0 < size <= vector_max_size] and [0 < step].
    If [size <= step <= 2^63 + size - 1] the loop of [mkTestBuffer] does
    not run and every slot is null: every bulk traversal dereferences
    null, and so does every timed traversal of at most [2^60 - 1] hops
    (for more hops [times.reserve] throws [std::length_error] first).
    If [2^63 + size <= step < 2^64], [size - 1 - step] wraps to a
    nonnegative [long long], the loop runs and writes out of bounds.
    If [step < size] the entry slot holds the address of
    slot [size - 1 - step]; the chain from there is back on its start after
    exactly [floor((size - 1) / step) + 1] hops and not earlier, and it only
    visits slots [0 <= x < size] with [x mod step = (size - 1) mod step]. *)
Theorem mkTestBuffer_chain_from_entry (size step : Z) :
  0 < size <= vector_max_size -> 0 < step ->
  (size <= step <= 2^63 + size - 1 ->
     mkTestBuffer size step = Ok (replicate (Z.to_nat size) None) /\
     forall (clk : nat -> Z) (n c : nat),
       touchTestBuffer (replicate (Z.to_nat size) None) n = Err NullDeref /\
       (Z.of_nat n <= ll_vector_max_size ->
          touchTestBufferTimed clk (replicate (Z.to_nat size) None) n c = Err NullDeref) /\
       (ll_vector_max_size < Z.of_nat n ->
          touchTestBufferTimed clk (replicate (Z.to_nat size) None) n c = Err LengthError)) /\
  (2^63 + size <= step < 2^64 -> mkTestBuffer size step = Err OutOfBounds) /\
  (step < size ->
     exists b, mkTestBuffer size step = Ok b /\
       entry b = Ok (Some (size - 1 - step)) /\
       chase b (Z.to_nat (chain_len size step)) (Some (size - 1 - step)) =
         Ok (Some (size - 1 - step)) /\
       (forall k : nat, 0 < Z.of_nat k < chain_len size step ->
          chase b k (Some (size - 1 - step)) <> Ok (Some (size - 1 - step))) /\
       (forall (k : nat) (x : Z), chase b k (Some (size - 1 - step)) = Ok (Some x) ->
          0 <= x < size /\ x mod step = (size - 1) mod step)).
Proof.
  intros Hs Hst. split; [|split].
  - intros Hge. split; [apply mkTestBuffer_degenerate; lia|].
    intros clk n c. split; [apply touch_null; exact Hs|]. split.
    + intros Hn. apply touchTimed_null; assumption.
    + intros Hn. rewrite touchTimed_reserve by exact Hn. rewrite entry_null by exact Hs.
      reflexivity.
  - intros Hw. apply mkTestBuffer_wrap_oob; lia.
  - intros Hlt.
    destruct (mkTestBuffer_shape size step ltac:(lia) Hlt ltac:(lia)) as (b & Hb & Hlen & Hcells).
    pose proof (chain_len_ge_2 size step ltac:(lia) Hlt b Hlen) as HL.
    pose proof (chase_from_entry size step ltac:(lia) Hlt b Hlen Hcells) as Hch.
    exists b. split; [exact Hb|].
    split; [apply (entry_built size step); try lia; assumption|].
    split; [|split].
    + rewrite Hch, Z2Nat.id by lia.
      replace (chain_len size step + 1) with (1 + 1 * chain_len size step) by ring.
      rewrite Z_mod_plus_full, Z.mod_small by lia. do 3 f_equal. ring.
    + intros k Hk. rewrite Hch. intros Heq. injection Heq as Heq.
      destruct (Z.eq_dec (Z.of_nat k + 1) (chain_len size step)) as [He | Hne].
      * rewrite He, Z_mod_same_full in Heq. lia.
      * rewrite Z.mod_small in Heq by lia. nia.
    + intros k x Hx. rewrite Hch in Hx. injection Hx as <-.
      pose proof (Z.mod_pos_bound (Z.of_nat k + 1) (chain_len size step) ltac:(lia)) as Hm.
      set (m := (Z.of_nat k + 1) mod chain_len size step) in *.
      unfold chain_len in Hm.
      pose proof (Z.mul_div_le (size - 1) step ltac:(lia)).
      assert (m * step <= (size - 1) / step * step) by (apply Z.mul_le_mono_nonneg_r; lia).
      split; [nia|]. apply mod_sub_mul. lia.
Qed.

Lemma mkTestBuffer_chain_from_entry_witness :
  (0 < 7 <= vector_max_size /\ 0 < 3 /\ 3 < 7) /\
  exists b, mkTestBuffer 7 3 = Ok b /\ entry b = Ok (Some 3).
Proof.
  assert (Hs : 0 < 7 <= vector_max_size) by (split; [lia | vm_compute; discriminate]).
  split; [split; [exact Hs | lia]|].
  destruct (proj2 (proj2 (mkTestBuffer_chain_from_entry 7 3 Hs ltac:(lia))) ltac:(lia))
    as (b & Hb & He & _).
  exists b. split; [exact Hb | exact He].
Defined.

(** C10 counterexample: with [size = 1] and [step = 2^63 + 1 >= size] the
    first [j = size - 1 - step] wraps to [2^63 - 1] as a [long long], the
    loop runs and writes past the end of the buffer. *)
Lemma mkTestBuffer_wrapping_step :
  1 <= 2^63 + 1 /\ mkTestBuffer 1 (2^63 + 1) = Err OutOfBounds.
Proof. split; [lia | reflexivity]. Qed.

(** C3 (divergence). With [cacheSizeBytes = 32] the slot count is 4 and
    the strides tried are 1 and 2. Under a clock that always reads 0 every
    maximum jump is 0, so no drop is seen. The loop then exits with
    [step = 4], a stride never tried, and returns [4 * sizeof(void* ) = 32]
    bytes instead of the final stride tried, [2 * sizeof(void* ) = 16]. *)
Theorem calcCacheLineSize_past_last_stride :
  calcCacheLineSize const_clock 32 0 = Ok (4 * ptr_size, 12%nat) /\
  4 * ptr_size <> 2 * ptr_size.
Proof. split; [vm_compute; reflexivity | unfold ptr_size; lia]. Qed.

(** C7. Whenever [calcCacheLineSize] returns, for any cache size and any
    clock, the value is at least [sizeof(void* )]. *)
Theorem calcCacheLineSize_ge_word (clk : nat -> Z) (cacheSizeBytes : Z) (c : nat) (r : Z) (c' : nat) :
  calcCacheLineSize clk cacheSizeBytes c = Ok (r, c') -> ptr_size <= r.
Proof.
  unfold calcCacheLineSize. intros H. eapply line_loop_ge; [|exact H]. lia.
Qed.

Lemma calcCacheLineSize_ge_word_witness :
  calcCacheLineSize const_clock 32 0 = Ok (32, 12%nat) /\ ptr_size <= 32.
Proof.
  split; [vm_compute; reflexivity|].
  apply (calcCacheLineSize_ge_word const_clock 32 0 32 12). vm_compute. reflexivity.
Defined.

(** C8. For [size_t] arguments [mkTestBuffer] fails its assertion exactly
    when [size = 0] or [step = 0], and [selectCacheSize] exactly when
    [windowSize < 2]; no other path of either ends in a failed assertion. *)
Theorem assertions_exact (size step : Z) (infos : list RawLevelInfo) (windowSize : Z) :
  0 <= size -> 0 <= step ->
  (mkTestBuffer size step = Err AssertFailure <-> size = 0 \/ step = 0) /\
  (selectCacheSize infos windowSize = Err AssertFailure <-> windowSize < 2).
Proof.
  intros Hs Hst. split.
  - rewrite mkTestBuffer_assert. lia.
  - apply selectCacheSize_assert.
Qed.

Lemma assertions_exact_witness :
  (0 <= 0 /\ 0 <= 5) /\ mkTestBuffer 0 5 = Err AssertFailure.
Proof.
  split; [lia|].
  apply (proj1 (assertions_exact 0 5 [] 3 ltac:(lia) ltac:(lia))). left. reflexivity.
Defined.

(** C9 (amended). Under a clock whose consecutive readings differ by less
    than 2^60 ns, for every buffer and every hop count [n <= 2^60 - 1]
    ([std::vector<long long>::max_size()]), [touchTestBuffer] and
    [touchTestBufferTimed] agree: both return the same landing value, the
    timed series then has exactly [n] entries, and both fault the same way
    otherwise. For a larger [n] the timed traversal throws
    [std::length_error] in [times.reserve(n)] (unless reading the entry
    slot already faults). *)
Theorem touch_timed_agree (clk : nat -> Z) (b : Buffer) (n c : nat) :
  clock_ok clk ->
  (Z.of_nat n <= ll_vector_max_size ->
   match touchTestBufferTimed clk b n c, touchTestBuffer b n with
   | Ok (times, v, _), Ok v' => v = v' /\ length times = n
   | Err e, Err e' => e = e'
   | _, _ => False
   end) /\
  (ll_vector_max_size < Z.of_nat n ->
   touchTestBufferTimed clk b n c = Err (match entry b with Ok _ => LengthError | Err e => e end)).
Proof.
  intros Hclk. split; [|apply touchTimed_reserve].
  intros Hn. unfold touchTestBufferTimed, touchTestBuffer.
  destruct (entry b) as [pos|e]; [rewrite !bind_Ok | rewrite !bind_Err; reflexivity].
  rewrite reserve_ok by exact Hn.
  pose proof (timed_loop_spec clk b Hclk n c pos []) as Ht.
  destruct (chase b n pos) as [p|e].
  - destruct Ht as (ts & Ht & Hl). rewrite Ht, !bind_Ok. cbv beta iota.
    destruct (deref b p) as [v|e]; rewrite ?bind_Ok, ?bind_Err; [|reflexivity].
    split; [reflexivity | exact Hl].
  - rewrite Ht, !bind_Err. reflexivity.
Qed.

Lemma touch_timed_agree_witness :
  clock_ok const_clock /\ Z.of_nat 5 <= ll_vector_max_size /\
  match touchTestBufferTimed const_clock [Some 3; Some 0; Some 1; Some 2] 5 0,
        touchTestBuffer [Some 3; Some 0; Some 1; Some 2] 5 with
  | Ok (times, v, _), Ok v' => v = v' /\ length times = 5%nat
  | Err e, Err e' => e = e'
  | _, _ => False
  end.
Proof.
  assert (Hc : clock_ok const_clock) by (intros k; unfold const_clock; lia).
  assert (Hn : Z.of_nat 5 <= ll_vector_max_size) by (vm_compute; discriminate).
  split; [exact Hc|]. split; [exact Hn|].
  exact (proj1 (touch_timed_agree const_clock [Some 3; Some 0; Some 1; Some 2] 5 0 Hc) Hn).
Defined.

(** C9 counterexample. The buffer [mkTestBuffer(4, 1)] and [n = 2^60]:
    [touchTestBuffer] returns a landing value while [touchTestBufferTimed]
    throws [std::length_error] in [times.reserve(n)]. *)
Lemma touch_timed_reserve_throws :
  exists b, mkTestBuffer 4 1 = Ok b /\
    (exists p, touchTestBuffer b (Z.to_nat (2^60)) = Ok (Some p)) /\
    touchTestBufferTimed const_clock b (Z.to_nat (2^60)) 0 = Err LengthError.
Proof.
  assert (Hm : 4 <= vector_max_size) by (vm_compute; discriminate).
  destruct (mkTestBuffer_shape 4 1 ltac:(lia) ltac:(lia) Hm) as (b & Hb & Hlen & Hcells).
  exists b. split; [exact Hb|]. split.
  - apply (touch_built_ok 4 1); try lia; assumption.
  - rewrite touchTimed_reserve
      by (rewrite Z2Nat.id by lia; rewrite ll_vector_max_size_val; lia).
    rewrite (entry_built 4 1); first [reflexivity | lia | assumption].
Qed.

(** C4 (amended). For [2 <= windowSize] and at least [windowSize + 3]
    points whose times keep all differences in range, the windowed series
    is [T(k+1) - T(k+1-windowSize)] for [k = windowSize - 1 .. n - 4] and
    [selectCacheSize] returns the size of the first maximum of that series.
    A strictly increasing input does not make the windowed series
    non-decreasing. *)
Theorem selectCacheSize_window_max (infos : list RawLevelInfo) (w : Z) :
  2 <= w -> w + 3 <= Z.of_nat (length infos) < 2^63 -> small_times infos ->
  (exists ds, mkDiffs infos = Ok ds /\
     windowed ds w = Ok (map (winEntry infos w) (seqZ (w - 1) (Z.of_nat (length infos) - w - 2)))) /\
  exists k, w - 1 <= k <= Z.of_nat (length infos) - 4 /\
    selectCacheSize infos w = Ok (sizeAt infos (k + 1)) /\
    (forall k', w - 1 <= k' <= Z.of_nat (length infos) - 4 ->
       timeNanos (winEntry infos w k') <= timeNanos (winEntry infos w k)) /\
    (forall k', w - 1 <= k' < k ->
       timeNanos (winEntry infos w k') < timeNanos (winEntry infos w k)).
Proof.
  intros Hw Hn Hs. split.
  - destruct (select_windowed infos w Hw ltac:(lia) Hs) as (ds & Hds & Hwin & _).
    exists ds. split; assumption.
  - exact (select_first_max infos w Hw Hn Hs).
Qed.

Lemma selectCacheSize_window_max_witness :
  small_times sample7 /\
  exists k, 2 <= k <= 3 /\ selectCacheSize sample7 3 = Ok (sizeAt sample7 (k + 1)).
Proof.
  assert (Hs : small_times sample7) by (apply small_times_b_ok; vm_compute; reflexivity).
  split; [exact Hs|].
  destruct (selectCacheSize_window_max sample7 3 ltac:(lia) ltac:(simpl; lia) Hs)
    as (_ & k & Hk & Hsel & _).
  exists k. split; [simpl in Hk; lia | exact Hsel].
Defined.

(** C4 counterexample: raw times 0, 10, 11, ..., 15 are strictly
    increasing, but the windowed series is 12 then 3, and the selected
    size 4 is not the size at the largest raw time. *)
Lemma sample7_window_drops :
  map timeNanos sample7 = [0; 10; 11; 12; 13; 14; 15] /\
  (ds ← mkDiffs sample7; windowed ds 3) = Ok [mkInfo 4 12; mkInfo 5 3] /\
  selectCacheSize sample7 3 = Ok 4.
Proof. split; [reflexivity | split; vm_compute; reflexivity]. Qed.

Lemma windowed_short (ds : list RawLevelInfo) (w : Z) :
  (length ds <= 1)%nat -> 2 <= w < 2^64 - 1 -> windowed ds w = Err OutOfBounds.
Proof.
  intros Hl Hw. unfold windowed. cbn [window_outer].
  assert (Hsz : to_size_t (Z.of_nat (length ds) - 2) = 2^64 + Z.of_nat (length ds) - 2).
  { destruct ds as [|d [|d' r]]; [reflexivity | reflexivity | simpl in Hl; lia]. }
  rewrite Hsz. destruct (Z.ltb_spec (w - 1) (2^64 + Z.of_nat (length ds) - 2)); [|lia].
  unfold elementAt. destruct (Z.leb_spec 0 (w - 1)); [|lia].
  rewrite lookup_ge_None_2 by lia. reflexivity.
Qed.

(** C5 (amended). For [2 <= windowSize < 2^64 - 1] and [n < 2^63] points
    whose times keep all differences in range: with [n >= 3] the windowed
    series has [max(0, n - windowSize - 2)] entries; it is non-empty and
    [selectCacheSize] returns a value exactly when
    [n >= windowSize + 3]; with [3 <= n <= windowSize + 2] the maximum is
    taken over an empty range; with [n <= 2] the windowing loop reads
    past the end of [diffs]. *)
Theorem selectCacheSize_window_count (infos : list RawLevelInfo) (w : Z) :
  2 <= w < 2^64 - 1 -> Z.of_nat (length infos) < 2^63 -> small_times infos ->
  (3 <= Z.of_nat (length infos) ->
     exists ds ws, mkDiffs infos = Ok ds /\ windowed ds w = Ok ws /\
       length ws = Z.to_nat (Z.of_nat (length infos) - w - 2)) /\
  (w + 3 <= Z.of_nat (length infos) -> exists s, selectCacheSize infos w = Ok s) /\
  (3 <= Z.of_nat (length infos) <= w + 2 -> selectCacheSize infos w = Err EmptyMax) /\
  (Z.of_nat (length infos) <= 2 -> selectCacheSize infos w = Err OutOfBounds).
Proof.
  intros Hw Hn Hs. split; [|split; [|split]].
  - intros H3. destruct (select_windowed infos w ltac:(lia) ltac:(lia) Hs) as (ds & Hds & Hwin & _).
    eexists ds, _. split; [exact Hds|]. split; [exact Hwin|].
    rewrite length_map, length_seqZ. reflexivity.
  - intros H3. destruct (select_first_max infos w ltac:(lia) ltac:(lia) Hs) as (k & _ & Hsel & _).
    eexists. exact Hsel.
  - intros H3. destruct (select_windowed infos w ltac:(lia) ltac:(lia) Hs) as (ds & _ & _ & Hsel).
    rewrite Hsel, seqZ_nil by lia. reflexivity.
  - intros H2. destruct (mkDiffs_ok infos Hs) as (ds & Hds & Hlen & _).
    unfold selectCacheSize. destruct (Z.ltb_spec w 2); [lia|].
    rewrite Hds, bind_Ok, windowed_short by lia. reflexivity.
Qed.

Lemma selectCacheSize_window_count_witness :
  small_times sample5 /\ selectCacheSize sample5 3 = Err EmptyMax.
Proof.
  assert (Hs : small_times sample5) by (apply small_times_b_ok; vm_compute; reflexivity).
  split; [exact Hs|].
  destruct (selectCacheSize_window_count sample5 3 ltac:(lia) ltac:(simpl; lia) Hs)
    as (_ & _ & H3 & _).
  apply H3. simpl. lia.
Defined.

(** C5 counterexample: five points ([windowSize + 2] for
    [windowSize = 3]) already give an empty windowed series and a maximum
    over an empty range. *)
Lemma sample5_window_empty :
  Z.of_nat (length sample5) = 3 + 2 /\
  (ds ← mkDiffs sample5; windowed ds 3) = Ok [] /\
  selectCacheSize sample5 3 = Err EmptyMax.
Proof. split; [reflexivity | split; vm_compute; reflexivity]. Qed.

(** C2 (amended). With [minSizeBytes = 8 * 1024], [maxSizeBytes = 256 * 1024]
    and a clock whose consecutive readings differ by less than 2^60 ns,
    [tryCacheLevelSizes] returns 32 records, the [j]-th for
    [8 KiB * (j + 1)], from 8 KiB to 256 KiB inclusive, and
    [selectCacheSize] with [windowSize = 3] returns the size of the probed
    record [j] for some [3 <= j <= 29], i.e. one of 32 KiB .. 240 KiB. *)
Theorem main_probe_select (clk : nat -> Z) (c : nat) :
  clock_ok clk ->
  exists infos c', tryCacheLevelSizes clk (8 * 1024) (256 * 1024) c = Ok (infos, c') /\
    length infos = 32%nat /\
    (forall j x, infos !! j = Some x -> arraySizeBytes x = 8192 * (Z.of_nat j + 1)) /\
    exists j x, (3 <= j <= 29)%nat /\ infos !! j = Some x /\
      selectCacheSize infos 3 = Ok (arraySizeBytes x).
Proof.
  intros Hclk. destruct (levels_main clk c Hclk) as (infos & c' & Hl & Hlen & Hsz & Hsm).
  exists infos, c'. split; [exact Hl|]. split; [exact Hlen|]. split; [exact Hsz|].
  destruct (select_first_max infos 3 ltac:(lia) ltac:(rewrite Hlen; lia) Hsm)
    as (k & Hk & Hsel & _).
  rewrite Hlen in Hk.
  destruct (lookup_lt_is_Some_2 infos (Z.to_nat (k + 1)) ltac:(lia)) as [x Hx].
  exists (Z.to_nat (k + 1)), x. split; [lia|]. split; [exact Hx|].
  rewrite Hsel. unfold sizeAt. rewrite Hx. reflexivity.
Qed.

Lemma main_probe_select_witness :
  clock_ok const_clock /\
  exists infos c', tryCacheLevelSizes const_clock (8 * 1024) (256 * 1024) 0 = Ok (infos, c') /\
    length infos = 32%nat.
Proof.
  assert (Hc : clock_ok const_clock) by (intros k; unfold const_clock; lia).
  split; [exact Hc|].
  destruct (main_probe_select const_clock 0 Hc) as (infos & c' & Hl & Hlen & _).
  exists infos, c'. split; [exact Hl | exact Hlen].
Defined.

(** C2 counterexample: the multiples of 8 KiB from 8 KiB to 256 KiB are
    32 points, not 33; the probing of [main] returns 32 records. *)
Lemma main_probe_32_points :
  exists infos c', tryCacheLevelSizes const_clock (8 * 1024) (256 * 1024) 0 = Ok (infos, c') /\
    length infos = 32%nat /\ length infos <> 33%nat.
Proof.
  assert (Hc : clock_ok const_clock) by (intros k; unfold const_clock; lia).
  destruct (levels_main const_clock 0 Hc) as (infos & c' & Hl & Hlen & _).
  exists infos, c'. split; [exact Hl|]. split; [exact Hlen | rewrite Hlen; discriminate].
Qed.

(** The loop of [tryCacheLevelSizes] from round [k] runs [probeRound] on
    the slot counts [minSize * (j + 1)] for [j = k .. maxSize / minSize - 1]. *)
Lemma levels_loop_rounds (clk : nat -> Z) (m M : Z) :
  1 <= m -> M < 2^61 ->
  forall fuel k size c acc, 0 <= k -> size = m * (k + 1) -> (Z.to_nat (M / m - k) < fuel)%nat ->
  levels_loop clk fuel M m size c acc =
    probe_rounds clk (map (fun j => m * (j + 1)) (seqZ k (M / m - k))) c acc.
Proof.
  intros Hm HM. induction fuel as [|f IH]; intros k size c acc Hk -> Hf; [lia|].
  cbn [levels_loop]. destruct (Z.leb_spec (m * (k + 1)) M) as [Hle | Hgt].
  - assert (Hq : k + 1 <= M / m) by (apply Z.div_le_lower_bound; lia).
    rewrite (seqZ_cons k (M / m - k)) by lia. cbn [map probe_rounds].
    assert (m <= m * (k + 1)) by nia.
    rewrite to_size_t_id by lia.
    destruct (probeRound clk (m * (k + 1)) c) as [[info c']|e];
      [rewrite !bind_Ok | rewrite !bind_Err; reflexivity].
    replace (Z.succ k) with (k + 1) by lia.
    replace (Z.pred (M / m - k)) with (M / m - (k + 1)) by lia.
    apply IH; [lia | ring | lia].
  - assert (Hq : M / m < k + 1) by (apply Z.div_lt_upper_bound; lia).
    rewrite seqZ_nil by lia. reflexivity.
Qed.

(** C6 (amended). For every probing range with [minSizeBytes >= 8], the
    rounds of [tryCacheLevelSizes] are [probeRound] on the slot counts
    [minSize * (j + 1)], [j = 0 .. maxSize / minSize - 1], in order, up to
    the first fault ([minSize = minSizeBytes / 8], [maxSize =
    maxSizeBytes / 8]). Every round has [size >= minSize >= 1] slots and
    builds its buffer with stride [max(1, size / nTouches)] in [1 .. size];
    each of its two traversals is [touchTestBuffer(buffer, nTouches)] with
    the constant [nTouches = 1000000]. With [minSizeBytes < 8] the first
    round has 0 slots and stride 1 (see the counterexample). *)
Theorem roundStride_in_range (clk : nat -> Z) (minSizeBytes maxSizeBytes : Z) (c : nat) :
  8 <= minSizeBytes < 2^64 -> 0 <= maxSizeBytes < 2^64 ->
  tryCacheLevelSizes clk minSizeBytes maxSizeBytes c =
    probe_rounds clk (round_sizes (minSizeBytes / ptr_size) (maxSizeBytes / ptr_size)) c [] /\
  (forall size, size ∈ round_sizes (minSizeBytes / ptr_size) (maxSizeBytes / ptr_size) ->
     1 <= minSizeBytes / ptr_size <= size /\ 1 <= roundStride size <= size).
Proof.
  intros Hmin Hmax.
  assert (Hm : 1 <= minSizeBytes / ptr_size) by (apply Z.div_le_lower_bound; unfold ptr_size; lia).
  assert (HM : 0 <= maxSizeBytes / ptr_size < 2^61).
  { split; [apply Z.div_pos; unfold ptr_size; lia|].
    apply Z.div_lt_upper_bound; unfold ptr_size; lia. }
  set (m := minSizeBytes / ptr_size) in *. set (M := maxSizeBytes / ptr_size) in *.
  split.
  - unfold tryCacheLevelSizes. cbv zeta. fold m M.
    assert (HMm : M / m <= M) by (apply Z.div_le_upper_bound; nia).
    rewrite (levels_loop_rounds clk m M ltac:(lia) ltac:(lia) _ 0 m c [])
      by (first [lia | ring]).
    unfold round_sizes. rewrite Z.sub_0_r. reflexivity.
  - intros size Hs. unfold round_sizes in Hs.
    apply list_elem_of_In, in_map_iff in Hs as (j & <- & Hj).
    apply list_elem_of_In, elem_of_seqZ in Hj.
    assert (m <= m * (j + 1)) by nia. split; [lia|].
    unfold roundStride, nTouches.
    assert (m * (j + 1) / 1000000 <= m * (j + 1)) by (apply Z.div_le_upper_bound; lia).
    lia.
Qed.

Lemma roundStride_in_range_witness :
  (8 <= 8192 < 2^64 /\ 0 <= 262144 < 2^64) /\ 1 <= roundStride 32768 <= 32768.
Proof.
  assert (H1 : 8 <= 8192 < 2^64) by lia. assert (H2 : 0 <= 262144 < 2^64) by lia.
  split; [split; assumption|].
  destruct (roundStride_in_range const_clock 8192 262144 0 H1 H2) as [_ Hb].
  apply Hb. apply list_elem_of_In. vm_compute.
  repeat (first [left; reflexivity | right]).
Defined.

(** C6 counterexample: with [minSizeBytes = 7] the first round has
    [7 / 8 = 0] slots and stride [max(1, 0) = 1 > 0]; [mkTestBuffer]'s
    assertion fails. *)
Lemma probe_zero_slots :
  7 / ptr_size = 0 /\ roundStride (7 / ptr_size) = 1 /\
  tryCacheLevelSizes const_clock 7 (256 * 1024) 0 = Err AssertFailure.
Proof. split; [reflexivity | split; [reflexivity | vm_compute; reflexivity]]. Qed.

(* ================================================================== *)
(** * Further properties of the code *)

(** [touchTestBuffer] is [n + 2] hops from the address of the last slot. *)
Lemma touch_chase (b : Buffer) (n : nat) :
  touchTestBuffer b n = chase b (S (S n)) (Some (to_size_t (Z.of_nat (length b) - 1))).
Proof.
  unfold touchTestBuffer, entry. rewrite chase_S_r. cbn [chase].
  destruct (deref b _) as [p|e]; rewrite ?bind_Ok, ?bind_Err; reflexivity.
Qed.

(** The timed loop records, for hop [k], the difference of the readings
    [c + 2k + 1] and [c + 2k], and ends where [n] plain hops end. *)
Lemma timed_loop_Ok (clk : nat -> Z) (b : Buffer) :
  forall n c pos times0 times v c',
  timed_loop clk b n c pos times0 = Ok (times, v, c') ->
  exists ts, times = times0 ++ ts /\ length ts = n /\ c' = (c + 2 * n)%nat /\
    (forall k, (k < n)%nat -> ts !! k = Some (clk (c + 2 * k + 1)%nat - clk (c + 2 * k)%nat)) /\
    chase b n pos = Ok v.
Proof.
  induction n as [|n IH]; intros c pos times0 times v c' H.
  - cbn [timed_loop] in H. injection H as <- <- <-.
    exists []. rewrite app_nil_r. repeat split; try lia.
  - cbn [timed_loop] in H.
    destruct (deref b pos) as [p'|e] eqn:Ed; [rewrite bind_Ok in H | rewrite bind_Err in H; discriminate].
    destruct (ll_sub (clk (S c)) (clk c)) as [d|e] eqn:Es;
      [rewrite bind_Ok in H | rewrite bind_Err in H; discriminate].
    assert (Hd : d = clk (S c) - clk c).
    { unfold ll_sub in Es. destruct (in_ll _); [injection Es as <-; reflexivity | discriminate]. }
    destruct (IH _ _ _ _ _ _ H) as (ts & -> & Hlen & -> & Hts & Hch).
    exists (d :: ts). rewrite <- app_assoc. split; [reflexivity|].
    split; [simpl; lia|]. split; [lia|]. split.
    + intros [|k] Hk.
      * simpl. rewrite Hd. do 2 f_equal; f_equal; lia.
      * simpl. rewrite Hts by lia. do 2 f_equal; f_equal; lia.
    + cbn [chase]. rewrite Ed, bind_Ok. exact Hch.
Qed.

(** X1. The outcome of [mkTestBuffer size step] for every pair of [size_t]
    arguments: the assertion fails when one of them is 0; the vector
    constructor throws [std::length_error] above [max_size()]; a stride of
    at least [2^63 + size] wraps [j] to a nonnegative index past the end
    and the second write is out of bounds; otherwise a buffer of [size]
    slots is returned. *)
Theorem mkTestBuffer_outcome (size step : Z) :
  0 <= size < 2^64 -> 0 <= step < 2^64 ->
  ((size = 0 \/ step = 0) -> mkTestBuffer size step = Err AssertFailure) /\
  (0 < size -> 0 < step -> vector_max_size < size -> mkTestBuffer size step = Err LengthError) /\
  (0 < size <= vector_max_size -> 2^63 + size <= step ->
     mkTestBuffer size step = Err OutOfBounds) /\
  (0 < size <= vector_max_size -> 0 < step < 2^63 + size ->
     exists b, mkTestBuffer size step = Ok b /\ length b = Z.to_nat size).
Proof.
  intros Hsz Hst. pose proof vector_max_size_val. split; [|split; [|split]].
  - intros H0. apply mkTestBuffer_assert. lia.
  - intros H1 H2 H3. unfold mkTestBuffer.
    destruct (Z.ltb_spec 0 size), (Z.ltb_spec 0 step); try lia. cbn [andb].
    destruct (Z.ltb_spec vector_max_size size); [reflexivity | lia].
  - intros H1 H2. apply mkTestBuffer_wrap_oob; lia.
  - intros H1 H2. destruct (Z.ltb_spec step size).
    + destruct (mkTestBuffer_shape size step ltac:(lia) ltac:(lia) ltac:(lia))
        as (b & Hb & Hlen & _).
      exists b. split; assumption.
    + exists (replicate (Z.to_nat size) None). split.
      * apply mkTestBuffer_degenerate; lia.
      * apply length_replicate.
Qed.

Lemma mkTestBuffer_outcome_witness :
  (0 <= 3 < 2^64 /\ 0 <= 2^63 + 3 < 2^64) /\
  mkTestBuffer 3 (2^63 + 3) = Err OutOfBounds.
Proof.
  assert (H1 : 0 <= 3 < 2^64) by lia.
  assert (H2 : 0 <= 2^63 + 3 < 2^64) by lia.
  split; [split; assumption|].
  destruct (mkTestBuffer_outcome 3 (2^63 + 3) H1 H2) as (_ & _ & H & _).
  apply H; [split; [lia | vm_compute; discriminate] | lia].
Defined.

(** X3. On a buffer built by [mkTestBuffer size step] with
    [1 <= step < size <= max_size], [touchTestBuffer(buffer, n)] returns
    the address of slot [size - 1 - ((n + 2) mod L) * step], where
    [L = (size - 1) / step + 1] is the length of the chain. *)
Theorem touchTestBuffer_landing (size step : Z) (b : Buffer) (n : nat) :
  1 <= step < size -> size <= vector_max_size -> mkTestBuffer size step = Ok b ->
  touchTestBuffer b n =
    Ok (Some (size - 1 - ((Z.of_nat n + 2) mod chain_len size step) * step)).
Proof.
  intros Hs Hmax Hb. pose proof vector_max_size_val.
  destruct (mkTestBuffer_shape size step ltac:(lia) ltac:(lia) Hmax) as (b0 & Hb0 & Hlen & Hcells).
  rewrite Hb in Hb0. injection Hb0 as <-.
  rewrite touch_chase, Hlen, Z2Nat.id, to_size_t_id by lia.
  rewrite (chase_from_last size step ltac:(lia) ltac:(lia) b Hlen Hcells).
  do 5 f_equal. lia.
Qed.

Lemma touchTestBuffer_landing_witness :
  (1 <= 2 < 7 /\ 7 <= vector_max_size /\ mkTestBuffer 7 2 = Ok [Some 6; None; Some 0; None; Some 2; None; Some 4]) /\
  touchTestBuffer [Some 6; None; Some 0; None; Some 2; None; Some 4] 3 = Ok (Some 4).
Proof.
  assert (H1 : 1 <= 2 < 7) by lia.
  assert (H2 : 7 <= vector_max_size) by (vm_compute; discriminate).
  assert (H3 : mkTestBuffer 7 2 = Ok [Some 6; None; Some 0; None; Some 2; None; Some 4])
    by (vm_compute; reflexivity).
  split; [split; [exact H1 | split; assumption]|].
  rewrite (touchTestBuffer_landing 7 2 _ 3 H1 H2 H3). vm_compute. reflexivity.
Defined.

(** X4. When [touchTestBufferTimed(buffer, n)] returns, it has read the
    clock [2n] times, its series has [n] entries, entry [k] is the
    difference of the readings [2k + 1] and [2k] of the call, and the
    returned pointer is the one [touchTestBuffer(buffer, n)] returns. *)
Theorem touchTestBufferTimed_series (clk : nat -> Z) (b : Buffer) (n c : nat)
    (times : list Z) (v : Ptr) (c' : nat) :
  touchTestBufferTimed clk b n c = Ok (times, v, c') ->
  length times = n /\ c' = (c + 2 * n)%nat /\
  (forall k, (k < n)%nat -> times !! k = Some (clk (c + 2 * k + 1)%nat - clk (c + 2 * k)%nat)) /\
  touchTestBuffer b n = Ok v.
Proof.
  unfold touchTestBufferTimed, touchTestBuffer. intros H.
  destruct (entry b) as [pos|e]; [rewrite bind_Ok in H; rewrite bind_Ok | rewrite bind_Err in H; discriminate].
  destruct (Z.ltb_spec ll_vector_max_size (Z.of_nat n)); [discriminate|].
  destruct (timed_loop clk b n c pos []) as [[[ts p] c1]|e] eqn:Et;
    [rewrite bind_Ok in H | rewrite bind_Err in H; discriminate].
  destruct (deref b p) as [w|e] eqn:Ed; [rewrite bind_Ok in H | rewrite bind_Err in H; discriminate].
  injection H as <- <- <-.
  destruct (timed_loop_Ok clk b n c pos [] ts p c1 Et) as (ts' & -> & Hlen & -> & Hts & Hch).
  split; [exact Hlen|]. split; [reflexivity|]. split; [exact Hts|].
  rewrite Hch, bind_Ok. exact Ed.
Qed.

Lemma touchTestBufferTimed_series_witness :
  touchTestBufferTimed (fun k => Z.of_nat (k * k)) [Some 3; Some 0; Some 1; Some 2] 2 0
    = Ok ([1; 5], Some 3, 4%nat) /\
  touchTestBuffer [Some 3; Some 0; Some 1; Some 2] 2 = Ok (Some 3).
Proof.
  assert (H : touchTestBufferTimed (fun k => Z.of_nat (k * k)) [Some 3; Some 0; Some 1; Some 2] 2 0
                = Ok ([1; 5], Some 3, 4%nat)) by (vm_compute; reflexivity).
  split; [exact H|].
  apply (touchTestBufferTimed_series _ _ _ _ _ _ _ H).
Defined.

(** The loop of [tryCacheLevelSizes] from [size]: record [j] has
    [size + j * sizeStep] slots and the time between the clock readings
    [c + 2j] and [c + 2j + 1]; two readings per round. *)
Lemma levels_loop_full (clk : nat -> Z) (maxSize sizeStep : Z) :
  clock_ok clk -> 1 <= sizeStep <= vector_max_size -> maxSize <= vector_max_size ->
  forall fuel size c acc, 2 <= size ->
  (Z.to_nat ((maxSize - size) / sizeStep + 1) < fuel)%nat ->
  exists infos c', levels_loop clk fuel maxSize sizeStep size c acc = Ok (acc ++ infos, c') /\
    length infos = Z.to_nat ((maxSize - size) / sizeStep + 1) /\
    c' = (c + 2 * length infos)%nat /\
    (forall j x, infos !! j = Some x ->
       x = mkInfo ((size + Z.of_nat j * sizeStep) * ptr_size)
                  (clk (c + 2 * j + 1)%nat - clk (c + 2 * j)%nat)).
Proof.
  intros Hclk Hst Hmax. pose proof vector_max_size_val.
  induction fuel as [|f IH]; intros size c acc Hs Hf; [lia|].
  cbn [levels_loop]. destruct (Z.leb_spec size maxSize) as [Hle | Hgt].
  - rewrite probeRound_ok by (try exact Hclk; lia). rewrite bind_Ok. cbv beta iota.
    rewrite to_size_t_id by lia.
    assert (Hq : (maxSize - (size + sizeStep)) / sizeStep + 1 = (maxSize - size) / sizeStep).
    { replace (maxSize - (size + sizeStep)) with (maxSize - size + (-1) * sizeStep) by ring.
      rewrite Z_div_plus_full by lia. ring. }
    assert (Hq0 : 0 <= (maxSize - size) / sizeStep) by (apply Z.div_pos; lia).
    destruct (IH (size + sizeStep) (S (S c)) (acc ++ [mkInfo (size * ptr_size) (clk (S c) - clk c)])
                ltac:(lia) ltac:(rewrite Hq; lia)) as (infos & c' & Hl & Hlen & Hc & Hx).
    exists (mkInfo (size * ptr_size) (clk (S c) - clk c) :: infos), c'.
    rewrite Hl, <- app_assoc. split; [reflexivity|].
    split; [simpl; rewrite Hlen, Hq; lia|]. split; [simpl; lia|].
    intros [|j] x Hj.
    + simpl in Hj. injection Hj as <-.
      assert (E1 : (c + 2 * 0 + 1)%nat = S c) by lia.
      assert (E2 : (c + 2 * 0)%nat = c) by lia.
      rewrite E1, E2. f_equal. lia.
    + simpl in Hj. rewrite (Hx j x Hj).
      assert (E1 : (S (S c) + 2 * j + 1)%nat = (c + 2 * S j + 1)%nat) by lia.
      assert (E2 : (S (S c) + 2 * j)%nat = (c + 2 * S j)%nat) by lia.
      rewrite E1, E2. f_equal. lia.
  - exists [], c. rewrite app_nil_r. split; [reflexivity|].
    assert ((maxSize - size) / sizeStep < 0) by (apply Z.div_lt_upper_bound; lia).
    split; [simpl; lia|]. split; [simpl; lia|].
    intros j x Hx. rewrite lookup_nil in Hx. discriminate.
Qed.

Lemma mkDiffs_cons2 (x y : RawLevelInfo) (r : list RawLevelInfo) :
  mkDiffs (x :: y :: r) =
  (d ← ll_sub (timeNanos y) (timeNanos x); ds ← mkDiffs (y :: r); Ok (mkInfo (arraySizeBytes y) d :: ds)).
Proof. reflexivity. Qed.

(** [mkDiffs] only looks at differences of times. *)
Lemma mkDiffs_shift (infos : list RawLevelInfo) (t : Z) :
  mkDiffs (map (fun x => mkInfo (arraySizeBytes x) (timeNanos x + t)) infos) = mkDiffs infos.
Proof.
  induction infos as [|x rest IH]; [reflexivity|].
  destruct rest as [|y r]; [reflexivity|].
  cbn [map] in *. rewrite !mkDiffs_cons2. rewrite IH. cbn [timeNanos arraySizeBytes].
  assert (Hs : ll_sub (timeNanos y + t) (timeNanos x + t) = ll_sub (timeNanos y) (timeNanos x)).
  { unfold ll_sub. replace (timeNanos y + t - (timeNanos x + t)) with (timeNanos y - timeNanos x) by ring.
    reflexivity. }
  rewrite Hs. reflexivity.
Qed.

Lemma sizeAt_app (infos r : list RawLevelInfo) (j : Z) :
  0 <= j < Z.of_nat (length infos) -> sizeAt (infos ++ r) j = sizeAt infos j.
Proof. intros Hj. unfold sizeAt. rewrite lookup_app_l by lia. reflexivity. Qed.

Lemma timeAt_app (infos r : list RawLevelInfo) (j : Z) :
  0 <= j < Z.of_nat (length infos) -> timeAt (infos ++ r) j = timeAt infos j.
Proof. intros Hj. unfold timeAt. rewrite lookup_app_l by lia. reflexivity. Qed.

(** Every entry of the differences carries the size of a point other than
    the first. *)
Lemma mkDiffs_sizes (infos ds : list RawLevelInfo) :
  mkDiffs infos = Ok ds ->
  forall d, d ∈ ds -> exists j x, (1 <= j)%nat /\ infos !! j = Some x /\
    arraySizeBytes d = arraySizeBytes x.
Proof.
  revert ds. induction infos as [|x rest IH]; intros ds H d Hd.
  - injection H as <-. apply elem_of_nil in Hd. contradiction.
  - destruct rest as [|y r].
    + injection H as <-. apply elem_of_nil in Hd. contradiction.
    + rewrite mkDiffs_cons2 in H.
      destruct (ll_sub (timeNanos y) (timeNanos x)) as [t|e];
        [rewrite bind_Ok in H | rewrite bind_Err in H; discriminate].
      destruct (mkDiffs (y :: r)) as [ds'|e] eqn:E;
        [rewrite bind_Ok in H | rewrite bind_Err in H; discriminate].
      injection H as <-. apply elem_of_cons in Hd as [-> | Hd].
      * exists 1%nat, y. split; [lia|]. split; reflexivity.
      * destruct (IH ds' eq_refl d Hd) as (j & z & Hj & Hz & Hs).
        exists (S j), z. split; [lia|]. split; [exact Hz | exact Hs].
Qed.

Lemma elementAt_in (ds : list RawLevelInfo) (k : Z) (d : RawLevelInfo) :
  elementAt ds k = Ok d -> d ∈ ds.
Proof.
  unfold elementAt. destruct (0 <=? k); [|discriminate].
  destruct (ds !! Z.to_nat k) as [y|] eqn:E; [|discriminate].
  intros H. injection H as <-. eapply list_elem_of_lookup_2. exact E.
Qed.

(** Every entry of the windowed series carries the size of an entry of the
    differences. *)
Lemma window_outer_sizes (fuel : nat) : forall ds w i acc ws,
  window_outer fuel ds w i acc = Ok ws ->
  forall y, y ∈ ws -> y ∈ acc \/ exists d, d ∈ ds /\ arraySizeBytes y = arraySizeBytes d.
Proof.
  induction fuel as [|f IH]; intros ds w i acc ws H y Hy; [discriminate|].
  cbn [window_outer] in H. destruct (_ <? _).
  - destruct (elementAt ds i) as [d|e] eqn:Ed; [rewrite bind_Ok in H | rewrite bind_Err in H; discriminate].
    destruct (window_inner _ _ _ _ _) as [sum|e]; [rewrite bind_Ok in H | rewrite bind_Err in H; discriminate].
    destruct (IH _ _ _ _ _ H y Hy) as [Hacc | Hds]; [|right; exact Hds].
    apply elem_of_app in Hacc as [Hacc | Hnew]; [left; exact Hacc|].
    right. apply list_elem_of_singleton in Hnew. subst y.
    exists d. split; [eapply elementAt_in; exact Ed | reflexivity].
  - injection H as <-. left. exact Hy.
Qed.

Lemma maxElement_in (ws : list RawLevelInfo) (m : RawLevelInfo) :
  maxElement ws = Ok m -> m ∈ ws.
Proof.
  intros H. destruct (maxElement_spec ws m H) as (k & Hk & _ & _).
  eapply list_elem_of_lookup_2. exact Hk.
Qed.

(** X5. Edge cases of [tryCacheLevelSizes]: below 8 bytes the first round
    has 0 slots and [mkTestBuffer]'s assertion fails; from 8 to 15 bytes
    the first round has one slot, which [mkTestBuffer] leaves null, and the
    traversal dereferences null; when [maxSizeBytes / 8 < minSizeBytes / 8]
    no round runs, no clock is read, and the result is empty. *)
Theorem tryCacheLevelSizes_edges (clk : nat -> Z) (minSizeBytes maxSizeBytes : Z) (c : nat) :
  0 <= minSizeBytes -> 0 <= maxSizeBytes ->
  (minSizeBytes < 8 -> tryCacheLevelSizes clk minSizeBytes maxSizeBytes c = Err AssertFailure) /\
  (8 <= minSizeBytes < 16 -> 8 <= maxSizeBytes ->
     tryCacheLevelSizes clk minSizeBytes maxSizeBytes c = Err NullDeref) /\
  (maxSizeBytes / ptr_size < minSizeBytes / ptr_size ->
     tryCacheLevelSizes clk minSizeBytes maxSizeBytes c = Ok ([], c)).
Proof.
  intros Hmin Hmax. unfold tryCacheLevelSizes. cbv zeta.
  assert (Hv : ptr_size = 8) by reflexivity. rewrite Hv.
  assert (0 <= maxSizeBytes / 8) by (apply Z.div_pos; lia).
  split; [|split].
  - intros H0. replace (minSizeBytes / 8) with 0 by (symmetry; apply Z.div_small; lia).
    cbn [levels_loop]. destruct (Z.leb_spec 0 (maxSizeBytes / 8)); [|lia].
    assert (Hp : probeRound clk 0 c = Err AssertFailure).
    { unfold probeRound. rewrite (proj2 (mkTestBuffer_assert 0 _)) by lia. reflexivity. }
    rewrite Hp. reflexivity.
  - intros H1 H2. replace (minSizeBytes / 8) with 1
      by (apply Z.div_unique with (minSizeBytes - 8); lia).
    assert (1 <= maxSizeBytes / 8) by (apply Z.div_le_lower_bound; lia).
    cbn [levels_loop]. destruct (Z.leb_spec 1 (maxSizeBytes / 8)); [|lia].
    assert (Hp : probeRound clk 1 c = Err NullDeref).
    { unfold probeRound.
      assert (Hb : mkTestBuffer 1 (roundStride 1) = Ok (replicate (Z.to_nat 1) None))
        by (vm_compute; reflexivity).
      rewrite Hb, bind_Ok, touch_null by (vm_compute; split; [reflexivity | discriminate]).
      reflexivity. }
    rewrite Hp. reflexivity.
  - intros H3. cbn [levels_loop].
    destruct (Z.leb_spec (minSizeBytes / 8) (maxSizeBytes / 8)); [lia | reflexivity].
Qed.

Lemma tryCacheLevelSizes_edges_witness :
  tryCacheLevelSizes const_clock 12 (256 * 1024) 0 = Err NullDeref.
Proof.
  destruct (tryCacheLevelSizes_edges const_clock 12 (256 * 1024) 0 ltac:(lia) ltac:(lia))
    as (_ & H & _).
  apply H; lia.
Defined.

(** X6. [tryCacheLevelSizes(minSizeBytes, maxSizeBytes)] with
    [minSizeBytes >= 16], [maxSizeBytes / 8 <= max_size] and a clock whose
    consecutive readings are less than 2^60 ns apart: with
    [m = minSizeBytes / 8] and [M = maxSizeBytes / 8], it returns
    [(M - m) / m + 1] records (none when [M < m]); record [j] has
    [(j + 1) * m * 8] bytes and the time between the clock readings
    [c + 2j] and [c + 2j + 1]; two readings per round. *)
Theorem tryCacheLevelSizes_records (clk : nat -> Z) (minSizeBytes maxSizeBytes : Z) (c : nat) :
  clock_ok clk -> 16 <= minSizeBytes -> maxSizeBytes / ptr_size <= vector_max_size ->
  exists infos c', tryCacheLevelSizes clk minSizeBytes maxSizeBytes c = Ok (infos, c') /\
    length infos = Z.to_nat ((maxSizeBytes / ptr_size - minSizeBytes / ptr_size)
                               / (minSizeBytes / ptr_size) + 1) /\
    c' = (c + 2 * length infos)%nat /\
    (forall j x, infos !! j = Some x ->
       x = mkInfo ((Z.of_nat j + 1) * (minSizeBytes / ptr_size) * ptr_size)
                  (clk (c + 2 * j + 1)%nat - clk (c + 2 * j)%nat)).
Proof.
  intros Hclk Hmin Hmax. pose proof vector_max_size_val.
  unfold tryCacheLevelSizes. cbv zeta.
  set (m := minSizeBytes / ptr_size) in *. set (M := maxSizeBytes / ptr_size) in *.
  assert (Hm : 2 <= m) by (unfold m, ptr_size; apply Z.div_le_lower_bound; lia).
  destruct (Z.leb_spec m M) as [HmM | HmM].
  - assert (Hq : (M - m) / m <= M - m) by (apply Z.div_le_upper_bound; nia).
    assert (Hq0 : 0 <= (M - m) / m) by (apply Z.div_pos; lia).
    destruct (levels_loop_full clk M m Hclk ltac:(lia) Hmax (S (S (Z.to_nat M))) m c []
                ltac:(lia) ltac:(lia)) as (infos & c' & Hl & Hlen & Hc & Hx).
    exists infos, c'. split; [exact Hl|]. split; [exact Hlen|]. split; [exact Hc|].
    intros j x Hj. rewrite (Hx j x Hj). f_equal. lia.
  - exists [], c. cbn [levels_loop]. destruct (Z.leb_spec m M); [lia|].
    split; [reflexivity|].
    assert ((M - m) / m < 0) by (apply Z.div_lt_upper_bound; lia).
    split; [simpl; lia|]. split; [simpl; lia|].
    intros j x Hx. rewrite lookup_nil in Hx. discriminate.
Qed.

Lemma tryCacheLevelSizes_records_witness :
  exists infos c', tryCacheLevelSizes (fun k => Z.of_nat k) 16 40 0 = Ok (infos, c') /\
    length infos = 2%nat.
Proof.
  assert (Hclk : clock_ok (fun k => Z.of_nat k)) by (intros k; lia).
  assert (Hmax : 40 / ptr_size <= vector_max_size) by (vm_compute; discriminate).
  destruct (tryCacheLevelSizes_records (fun k => Z.of_nat k) 16 40 0 Hclk ltac:(lia) Hmax)
    as (infos & c' & Hl & Hlen & _).
  exists infos, c'. split; [exact Hl|]. rewrite Hlen. reflexivity.
Defined.

(** X7. Adding the same constant to every measured time does not change
    what [selectCacheSize] returns (a value or a fault): it only uses
    differences of consecutive times. *)
Theorem selectCacheSize_shift (infos : list RawLevelInfo) (w t : Z) :
  selectCacheSize (map (fun x => mkInfo (arraySizeBytes x) (timeNanos x + t)) infos) w =
  selectCacheSize infos w.
Proof. unfold selectCacheSize. rewrite mkDiffs_shift. reflexivity. Qed.

(** X8. The last two points never influence [selectCacheSize] (the "tail
    outliers" of the source): for at least three points with small times,
    replacing the last two points by any others with small times gives the
    same result. *)
Theorem selectCacheSize_tail_ignored (infos : list RawLevelInfo) (a b a' b' : RawLevelInfo) (w : Z) :
  1 <= Z.of_nat (length infos) -> Z.of_nat (length infos) + 2 < 2^63 ->
  small_times (infos ++ [a; b]) -> small_times (infos ++ [a'; b']) ->
  selectCacheSize (infos ++ [a; b]) w = selectCacheSize (infos ++ [a'; b']) w.
Proof.
  intros Hn Hn' Hs1 Hs2.
  destruct (Z.ltb_spec w 2) as [Hw | Hw].
  { unfold selectCacheSize. destruct (Z.ltb_spec w 2); [reflexivity | lia]. }
  assert (L1 : Z.of_nat (length (infos ++ [a; b])) = Z.of_nat (length infos) + 2)
    by (rewrite length_app; simpl; lia).
  assert (L2 : Z.of_nat (length (infos ++ [a'; b'])) = Z.of_nat (length infos) + 2)
    by (rewrite length_app; simpl; lia).
  destruct (select_windowed (infos ++ [a; b]) w Hw ltac:(lia) Hs1) as (_ & _ & _ & E1).
  destruct (select_windowed (infos ++ [a'; b']) w Hw ltac:(lia) Hs2) as (_ & _ & _ & E2).
  rewrite E1, E2, L1, L2.
  assert (Hmap : map (winEntry (infos ++ [a; b]) w) (seqZ (w - 1) (Z.of_nat (length infos) + 2 - w - 2)) =
                 map (winEntry (infos ++ [a'; b']) w) (seqZ (w - 1) (Z.of_nat (length infos) + 2 - w - 2))).
  { apply map_ext_in. intros k Hk. apply list_elem_of_In in Hk. apply elem_of_seqZ in Hk.
    unfold winEntry.
    rewrite !sizeAt_app, !timeAt_app by lia. reflexivity. }
  rewrite Hmap. reflexivity.
Qed.

Lemma selectCacheSize_tail_ignored_witness :
  selectCacheSize (sample5 ++ [mkInfo 6 100; mkInfo 7 0]) 3 =
  selectCacheSize (sample5 ++ [mkInfo 6 0; mkInfo 7 5000]) 3.
Proof.
  apply selectCacheSize_tail_ignored.
  - vm_compute. discriminate.
  - vm_compute. reflexivity.
  - apply small_times_b_ok. vm_compute. reflexivity.
  - apply small_times_b_ok. vm_compute. reflexivity.
Defined.

(** X9. Whatever the input, a size returned by [selectCacheSize] is the
    [arraySizeBytes] of one of the points [infos[1..]]: never a value of
    its own and never the size of the first point alone. *)
Theorem selectCacheSize_returns_probed (infos : list RawLevelInfo) (w s : Z) :
  selectCacheSize infos w = Ok s ->
  exists j x, (1 <= j)%nat /\ infos !! j = Some x /\ s = arraySizeBytes x.
Proof.
  unfold selectCacheSize. intros H. destruct (w <? 2); [discriminate|].
  destruct (mkDiffs infos) as [ds|e] eqn:Eds; [rewrite bind_Ok in H | rewrite bind_Err in H; discriminate].
  destruct (windowed ds w) as [ws|e] eqn:Ews; [rewrite bind_Ok in H | rewrite bind_Err in H; discriminate].
  destruct (maxElement ws) as [m|e] eqn:Em; [rewrite bind_Ok in H | rewrite bind_Err in H; discriminate].
  injection H as <-.
  destruct (window_outer_sizes _ ds w _ [] ws Ews m (maxElement_in ws m Em)) as [Hnil | (d & Hd & Hsz)].
  { apply elem_of_nil in Hnil. contradiction. }
  destruct (mkDiffs_sizes infos ds Eds d Hd) as (j & x & Hj & Hx & Hdx).
  exists j, x. split; [exact Hj|]. split; [exact Hx|]. congruence.
Qed.

Lemma selectCacheSize_returns_probed_witness :
  exists j x, (1 <= j)%nat /\ sample7 !! j = Some x /\ 4 = arraySizeBytes x.
Proof.
  apply (selectCacheSize_returns_probed sample7 3 4). vm_compute. reflexivity.
Defined.

(* ------------------------------------------------------------------ *)
(** ** The line-size loop, stride by stride *)

Lemma pow2_succ (i : Z) : 0 <= i -> 2^i * 2 = 2^(i + 1).
Proof. intros Hi. rewrite Z.pow_add_r by lia. ring. Qed.

Lemma adjacent_diffs_cons2 (a b : Z) (r : list Z) :
  adjacent_diffs (a :: b :: r) = (d ← ll_sub b a; ds ← adjacent_diffs (b :: r); Ok (d :: ds)).
Proof. reflexivity. Qed.

Lemma adjacent_diffs_ok (ts : list Z) :
  (forall t, t ∈ ts -> - 2^60 < t < 2^60) ->
  exists ds, adjacent_diffs ts = Ok ds /\ length ds = pred (length ts).
Proof.
  induction ts as [|a rest IH]; intros Hb; [exists []; split; reflexivity|].
  destruct rest as [|b r]; [exists []; split; reflexivity|].
  destruct IH as (ds & Hds & Hlen).
  { intros t Ht. apply Hb. apply elem_of_cons. right. exact Ht. }
  assert (Ha := Hb a ltac:(apply elem_of_cons; left; reflexivity)).
  assert (Hb' := Hb b ltac:(apply elem_of_cons; right; apply elem_of_cons; left; reflexivity)).
  exists (b - a :: ds). rewrite adjacent_diffs_cons2, ll_sub_ok by lia.
  rewrite bind_Ok, Hds, bind_Ok. split; [reflexivity|]. simpl in *. lia.
Qed.

Lemma adjacent_diffs_zero (ts : list Z) :
  (forall t, t ∈ ts -> t = 0) -> adjacent_diffs ts = Ok (replicate (pred (length ts)) 0).
Proof.
  induction ts as [|a rest IH]; intros Hz; [reflexivity|].
  destruct rest as [|b r]; [reflexivity|].
  rewrite adjacent_diffs_cons2.
  rewrite IH by (intros t Ht; apply Hz; apply elem_of_cons; right; exact Ht).
  rewrite (Hz a) by (apply elem_of_cons; left; reflexivity).
  rewrite (Hz b) by (apply elem_of_cons; right; apply elem_of_cons; left; reflexivity).
  reflexivity.
Qed.

Lemma fold_max_zeros (k : nat) :
  fold_left (fun best y => if best <? y then y else best) (replicate k 0) 0 = 0.
Proof. induction k as [|k IH]; [reflexivity|]. simpl. exact IH. Qed.

(** The line-size loop traverses [size / step] hops, within [max_size()]. *)
Lemma line_hops_ok (size s : Z) :
  0 <= size <= vector_max_size -> 0 < s -> Z.of_nat (Z.to_nat (size / s)) <= ll_vector_max_size.
Proof.
  intros Hs Hp. rewrite ll_vector_max_size_val. pose proof vector_max_size_val.
  rewrite Z2Nat.id by (apply Z.div_pos; lia).
  pose proof (Z.div_le_upper_bound size s size Hp ltac:(nia)). lia.
Qed.

(** A timed traversal of a buffer built with [1 <= step < size] succeeds:
    [n] times, entry [k] between the clock readings [c + 2k] and
    [c + 2k + 1]. *)
Lemma timed_built_ok (clk : nat -> Z) (size step : Z) (b : Buffer) (n c : nat) :
  clock_ok clk -> 1 <= step < size -> size <= vector_max_size -> mkTestBuffer size step = Ok b ->
  Z.of_nat n <= ll_vector_max_size ->
  exists times v, touchTestBufferTimed clk b n c = Ok (times, v, (c + 2 * n)%nat) /\
    length times = n /\
    (forall k, (k < n)%nat -> times !! k = Some (clk (c + 2 * k + 1)%nat - clk (c + 2 * k)%nat)).
Proof.
  intros Hclk Hs Hmax Hb Hn.
  destruct (mkTestBuffer_shape size step ltac:(lia) ltac:(lia) Hmax) as (b0 & Hb0 & Hlen & Hcells).
  rewrite Hb in Hb0. injection Hb0 as <-.
  destruct (touch_built_ok size step b n Hs Hmax Hlen Hcells) as [p Hp].
  unfold touchTestBuffer in Hp.
  destruct (entry b) as [pos|e] eqn:Ee; [rewrite bind_Ok in Hp | rewrite bind_Err in Hp; discriminate].
  destruct (chase b n pos) as [pos'|e] eqn:Ec; [rewrite bind_Ok in Hp | rewrite bind_Err in Hp; discriminate].
  pose proof (timed_loop_spec clk b Hclk n c pos []) as Ht. rewrite Ec in Ht.
  destruct Ht as (ts & Ht & Hlen').
  destruct (timed_loop_Ok clk b n c pos [] _ _ _ Ht) as (ts' & Hts' & _ & _ & Hk & _).
  exists ts, (Some p). unfold touchTestBufferTimed.
  rewrite Ee, bind_Ok, reserve_ok by exact Hn. rewrite Ht, bind_Ok. cbv beta iota. rewrite Hp, bind_Ok.
  split; [reflexivity|]. split; [exact Hlen'|].
  simpl in Hts'. subst ts'. exact Hk.
Qed.

(** The strides tried are powers of two; a value returned on stride
    [2^k] is [8 * 2^k], with [2^k < 2 * size] unless [k = 0]. *)
Lemma line_loop_pow (clk : nat -> Z) (size : Z) :
  forall fuel i last c r c', 0 <= i -> 2^i < 2^61 -> (i = 0 \/ 2^i < 2 * size) ->
  line_loop clk fuel size (2^i) last c = Ok (r, c') ->
  exists k, 0 <= k /\ r = ptr_size * 2^k /\ (k = 0 \/ 2^k < 2 * size).
Proof.
  pose proof vector_max_size_val as Hv.
  induction fuel as [|f IH]; intros i last c r c' Hi H61 Hinv H; [discriminate|].
  pose proof (Z.pow_pos_nonneg 2 i ltac:(lia) Hi) as Hp.
  cbn [line_loop] in H. destruct (Z.ltb_spec (2^i) size) as [Hlt | Hge].
  - bind_case H. apply mkTestBuffer_Ok_bound in E as [Hsz _].
    bind_case_as H [[times p] c1]. bind_case H. bind_case_as H mx.
    destruct (negb (last =? LLONG_MAX) && (mx <? Z.quot last 10)).
    + injection H as <- _. exists i. unfold ptr_size in *.
      rewrite to_size_t_id by lia. split; [lia|]. split; [ring | right; lia].
    + rewrite to_size_t_id, pow2_succ in H by lia.
      apply (IH (i + 1) mx c1 r c' ltac:(lia));
        [rewrite <- pow2_succ by lia; lia | right; rewrite <- pow2_succ by lia; lia | exact H].
  - injection H as <- _. exists i. unfold ptr_size in *.
    rewrite to_size_t_id by lia. split; [lia|]. split; [ring | exact Hinv].
Qed.

(** Under a clock with small steps the loop only ends in a value or, on
    a stride [2^k] with [2^k < size < 2^(k+1)], in [max_element] of an
    empty range. *)
Lemma line_loop_outcome (clk : nat -> Z) (size : Z) :
  clock_ok clk -> size <= vector_max_size ->
  forall fuel i last c, 0 <= i -> (Z.to_nat (60 - i) < fuel)%nat ->
  (exists r c', line_loop clk fuel size (2^i) last c = Ok (r, c')) \/
  (line_loop clk fuel size (2^i) last c = Err EmptyMax /\ forall m, 0 <= m -> size <> 2^m).
Proof.
  intros Hclk Hmax. pose proof vector_max_size_val as Hv.
  induction fuel as [|f IH]; intros i last c Hi Hf; [lia|].
  pose proof (Z.pow_pos_nonneg 2 i ltac:(lia) Hi) as Hp.
  cbn [line_loop]. destruct (Z.ltb_spec (2^i) size) as [Hlt | Hge];
    [|left; do 2 eexists; reflexivity].
  assert (Hi60 : i < 60).
  { apply (Z.pow_lt_mono_r_iff 2 i 60); lia. }
  assert (H2 : 2^i * 2 = 2^(i + 1)) by (apply pow2_succ; lia).
  destruct (mkTestBuffer_shape size (2^i) ltac:(lia) Hlt Hmax) as (b & Hb & _ & _).
  rewrite Hb, bind_Ok.
  destruct (timed_built_ok clk size (2^i) b (Z.to_nat (size / 2^i)) c Hclk ltac:(lia) Hmax Hb
      (line_hops_ok size (2^i) ltac:(lia) ltac:(lia)))
    as (times & v & Ht & Hlen & Hts).
  rewrite Ht, bind_Ok. cbv beta iota.
  assert (Hh : 1 <= size / 2^i) by (apply Z.div_le_lower_bound; lia).
  assert (Hbnd : forall t, t ∈ times -> - 2^60 < t < 2^60).
  { intros t Ht'. apply list_elem_of_lookup_1 in Ht' as [k Hk].
    pose proof (lookup_lt_Some _ _ _ Hk) as Hkl. rewrite Hts in Hk by lia.
    injection Hk as <-. pose proof (Hclk (c + 2 * k)%nat) as Hc'.
    replace (S (c + 2 * k)) with (c + 2 * k + 1)%nat in Hc' by lia. exact Hc'. }
  assert (Hld : lineDiffs times = adjacent_diffs times)
    by (destruct times; [simpl in Hlen; lia | reflexivity]).
  destruct (adjacent_diffs_ok times Hbnd) as (ds & Hds & Hdl).
  rewrite Hld, Hds, bind_Ok.
  destruct ds as [|d0 ds'].
  - right. split; [reflexivity|].
    assert (Hsm : size < 2^(i + 1)).
    { rewrite <- H2. destruct (Z.ltb_spec size (2^i * 2)) as [Hs | Hs]; [exact Hs|].
      assert (2 <= size / 2^i) by (apply Z.div_le_lower_bound; lia).
      simpl in Hdl. lia. }
    intros m Hm Heq. rewrite Heq in Hlt, Hsm.
    apply Z.pow_lt_mono_r_iff in Hlt; [|lia|lia].
    apply Z.pow_lt_mono_r_iff in Hsm; [|lia|lia]. lia.
  - cbn [maxElementZ]. rewrite bind_Ok.
    destruct (negb (last =? LLONG_MAX) && (_ <? Z.quot last 10));
      [left; do 2 eexists; reflexivity|].
    rewrite to_size_t_id by lia. rewrite H2.
    apply IH; lia.
Qed.

(** With a clock that never advances no drop is ever seen: the loop runs
    up to the first power of two [>= size], or stops on the stride [2^k]
    with [2^k < size < 2^(k+1)] where [max_element] is taken over an
    empty range. *)
Lemma line_loop_const (clk : nat -> Z) (size : Z) :
  (forall k, clk (S k) = clk k) -> size <= vector_max_size ->
  forall fuel i last c, 0 <= i -> (last = LLONG_MAX \/ last = 0) -> (Z.to_nat (60 - i) < fuel)%nat ->
  (forall m, i <= m -> size = 2^m ->
     exists c', line_loop clk fuel size (2^i) last c = Ok (size * ptr_size, c')) /\
  (2^i < size -> (forall m, 0 <= m -> size <> 2^m) ->
     line_loop clk fuel size (2^i) last c = Err EmptyMax).
Proof.
  intros Hconst Hmax. pose proof vector_max_size_val as Hv.
  assert (Hclk : clock_ok clk) by (intros k; rewrite Hconst; lia).
  induction fuel as [|f IH]; intros i last c Hi Hlast Hf; [lia|].
  pose proof (Z.pow_pos_nonneg 2 i ltac:(lia) Hi) as Hp.
  cbn [line_loop]. destruct (Z.ltb_spec (2^i) size) as [Hlt | Hge].
  - assert (Hi60 : i < 60).
    { apply (Z.pow_lt_mono_r_iff 2 i 60); lia. }
    assert (H2 : 2^i * 2 = 2^(i + 1)) by (apply pow2_succ; lia).
    destruct (mkTestBuffer_shape size (2^i) ltac:(lia) Hlt Hmax) as (b & Hb & _ & _).
    rewrite Hb, bind_Ok.
    destruct (timed_built_ok clk size (2^i) b (Z.to_nat (size / 2^i)) c Hclk ltac:(lia) Hmax Hb
      (line_hops_ok size (2^i) ltac:(lia) ltac:(lia)))
      as (times & v & Ht & Hlen & Hts).
    rewrite Ht, bind_Ok. cbv beta iota.
    assert (Hh : 1 <= size / 2^i) by (apply Z.div_le_lower_bound; lia).
    assert (Hz : forall t, t ∈ times -> t = 0).
    { intros t Ht'. apply list_elem_of_lookup_1 in Ht' as [k Hk].
      pose proof (lookup_lt_Some _ _ _ Hk) as Hkl. rewrite Hts in Hk by lia.
      assert (Hc0 : clk (c + 2 * k + 1)%nat - clk (c + 2 * k)%nat = 0).
      { replace (c + 2 * k + 1)%nat with (S (c + 2 * k)) by lia. rewrite Hconst. lia. }
      rewrite Hc0 in Hk. injection Hk as <-. reflexivity. }
    assert (Hld : lineDiffs times = adjacent_diffs times)
      by (destruct times; [simpl in Hlen; lia | reflexivity]).
    rewrite Hld, (adjacent_diffs_zero times Hz), bind_Ok, Hlen.
    destruct (Z.ltb_spec size (2^i * 2)) as [Hs | Hs].
    + assert (Hone : size / 2^i = 1).
      { assert (size / 2^i < 2) by (apply Z.div_lt_upper_bound; lia). lia. }
      rewrite Hone. split.
      * intros m Hm Heq. exfalso. rewrite Heq in Hlt, Hs. rewrite H2 in Hs.
        apply Z.pow_lt_mono_r_iff in Hlt; [|lia|lia].
        apply Z.pow_lt_mono_r_iff in Hs; [|lia|lia]. lia.
      * intros _ _. reflexivity.
    + assert (Htwo : 2 <= size / 2^i) by (apply Z.div_le_lower_bound; lia).
      destruct (pred (Z.to_nat (size / 2^i))) as [|k] eqn:Ek; [lia|].
      cbn [maxElementZ replicate]. rewrite fold_max_zeros, bind_Ok.
      assert (Hc : negb (last =? LLONG_MAX) && (0 <? Z.quot last 10) = false)
        by (destruct Hlast as [-> | ->]; reflexivity).
      rewrite Hc, to_size_t_id, H2 by lia.
      destruct (IH (i + 1) 0 (c + 2 * Z.to_nat (size / 2^i))%nat ltac:(lia) ltac:(right; reflexivity)
                  ltac:(lia)) as [IH1 IH2].
      split.
      * intros m Hm Heq. apply (IH1 m); [|exact Heq].
        assert (i < m); [|lia].
        rewrite Heq in Hlt. apply Z.pow_lt_mono_r_iff in Hlt; lia.
      * intros _ Hnp. apply IH2; [|exact Hnp].
        rewrite <- H2. specialize (Hnp (i + 1) ltac:(lia)). rewrite <- H2 in Hnp. lia.
  - split.
    + intros m Hm Heq. exists c.
      assert (Hmi : m <= i).
      { destruct (Z.le_gt_cases m i) as [Hmi | Hmi]; [exact Hmi|].
        exfalso. rewrite Heq in Hge. apply Z.pow_le_mono_r_iff in Hge; lia. }
      assert (m = i) by lia. subst m.
      unfold ptr_size in *. rewrite to_size_t_id by lia. rewrite Heq. reflexivity.
    + intros Hlt. lia.
Qed.

(** X10. For every clock, a value returned by
    [calcCacheLineSize(cacheSizeBytes)] is [8 * 2^k] bytes. Below 16 bytes
    (at most one slot) no stride is tried: the result is 8 and the clock
    is not read. From 16 bytes on the result is less than
    [2 * cacheSizeBytes]. *)
Theorem calcCacheLineSize_power_of_two (clk : nat -> Z) (cacheSizeBytes : Z) (c : nat)
    (r : Z) (c' : nat) :
  calcCacheLineSize clk cacheSizeBytes c = Ok (r, c') ->
  exists k, 0 <= k /\ r = ptr_size * 2^k /\
    (cacheSizeBytes < 16 -> r = ptr_size /\ c' = c) /\
    (16 <= cacheSizeBytes -> r < 2 * cacheSizeBytes).
Proof.
  unfold calcCacheLineSize. intros H.
  assert (Hv : ptr_size = 8) by reflexivity.
  destruct (Z.ltb_spec cacheSizeBytes 16) as [Hs | Hs].
  - assert (cacheSizeBytes / ptr_size < 2) by (rewrite Hv; apply Z.div_lt_upper_bound; lia).
    cbn [line_loop] in H. destruct (Z.ltb_spec 1 (cacheSizeBytes / ptr_size)); [lia|].
    injection H as <- <-. exists 0. rewrite Hv. split; [lia|].
    split; [reflexivity|]. split; [intros _; split; reflexivity | lia].
  - change (line_loop clk 64 (cacheSizeBytes / ptr_size) 1 LLONG_MAX c)
      with (line_loop clk 64 (cacheSizeBytes / ptr_size) (2^0) LLONG_MAX c) in H.
    destruct (line_loop_pow clk _ 64 0 LLONG_MAX c r c' ltac:(lia) ltac:(lia) ltac:(lia) H)
      as (k & Hk & Hr & Hkr).
    exists k. split; [exact Hk|]. split; [exact Hr|]. split; [lia|].
    intros _. rewrite Hr, Hv. rewrite Hv in Hkr.
    pose proof (Z.mul_div_le cacheSizeBytes 8 ltac:(lia)).
    destruct Hkr as [-> | Hkr]; lia.
Qed.

Lemma calcCacheLineSize_power_of_two_witness :
  calcCacheLineSize const_clock 32 0 = Ok (32, 12%nat) /\ 32 = ptr_size * 2^2.
Proof.
  assert (H : calcCacheLineSize const_clock 32 0 = Ok (32, 12%nat)) by (vm_compute; reflexivity).
  split; [exact H|].
  destruct (calcCacheLineSize_power_of_two const_clock 32 0 32 12 H) as (k & Hk & Hr & _).
  reflexivity.
Defined.

(** X11. With a clock whose consecutive readings are less than 2^60 ns
    apart and [cacheSizeBytes / 8 <= max_size], [calcCacheLineSize] never
    dereferences null, never accesses out of range and never overflows: it
    returns a value, or it takes [max_element] of an empty range, which
    happens only when the slot count [cacheSizeBytes / 8] is not a power
    of two (on the stride [2^k] with [2^k < size < 2^(k+1)], where the
    traversal has one hop and no difference). *)
Theorem calcCacheLineSize_outcome (clk : nat -> Z) (cacheSizeBytes : Z) (c : nat) :
  clock_ok clk -> cacheSizeBytes / ptr_size <= vector_max_size ->
  (exists r c', calcCacheLineSize clk cacheSizeBytes c = Ok (r, c')) \/
  (calcCacheLineSize clk cacheSizeBytes c = Err EmptyMax /\
   forall m, 0 <= m -> cacheSizeBytes / ptr_size <> 2^m).
Proof.
  intros Hclk Hmax. unfold calcCacheLineSize.
  change (line_loop clk 64 (cacheSizeBytes / ptr_size) 1 LLONG_MAX c)
    with (line_loop clk 64 (cacheSizeBytes / ptr_size) (2^0) LLONG_MAX c).
  apply line_loop_outcome; [exact Hclk | exact Hmax | lia | lia].
Qed.

Lemma calcCacheLineSize_outcome_witness :
  clock_ok const_clock /\ 4096 / ptr_size <= vector_max_size /\
  ((exists r c', calcCacheLineSize const_clock 4096 0 = Ok (r, c')) \/
   (calcCacheLineSize const_clock 4096 0 = Err EmptyMax /\
    forall m, 0 <= m -> 4096 / ptr_size <> 2^m)).
Proof.
  assert (Hc : clock_ok const_clock) by (intros k; unfold const_clock; lia).
  assert (Hm : 4096 / ptr_size <= vector_max_size) by (vm_compute; discriminate).
  split; [exact Hc|]. split; [exact Hm|].
  exact (calcCacheLineSize_outcome const_clock 4096 0 Hc Hm).
Defined.

(** X12. With any clock that never advances (every reading equals the
    previous one, so every elapsed time is 0 and no drop of the maximum
    jump is ever observed) and [16 <= cacheSizeBytes] with
    [cacheSizeBytes / 8 <= max_size]: when the slot count
    [cacheSizeBytes / 8] is a power of two, [calcCacheLineSize] returns
    the whole buffer, [cacheSizeBytes / 8 * 8] bytes; otherwise it ends in
    [max_element] of an empty range. *)
Theorem calcCacheLineSize_const_clock (clk : nat -> Z) (cacheSizeBytes : Z) (c : nat) :
  (forall k, clk (S k) = clk k) ->
  16 <= cacheSizeBytes -> cacheSizeBytes / ptr_size <= vector_max_size ->
  ((exists m, 0 <= m /\ cacheSizeBytes / ptr_size = 2^m) ->
     exists c', calcCacheLineSize clk cacheSizeBytes c =
                Ok (cacheSizeBytes / ptr_size * ptr_size, c')) /\
  ((forall m, 0 <= m -> cacheSizeBytes / ptr_size <> 2^m) ->
     calcCacheLineSize clk cacheSizeBytes c = Err EmptyMax).
Proof.
  intros Hconst Hs Hmax.
  assert (H2 : 2 <= cacheSizeBytes / ptr_size) by (apply Z.div_le_lower_bound; unfold ptr_size; lia).
  unfold calcCacheLineSize.
  change (line_loop clk 64 (cacheSizeBytes / ptr_size) 1 LLONG_MAX c)
    with (line_loop clk 64 (cacheSizeBytes / ptr_size) (2^0) LLONG_MAX c).
  destruct (line_loop_const clk (cacheSizeBytes / ptr_size) Hconst Hmax 64 0 LLONG_MAX c ltac:(lia)
              ltac:(left; reflexivity) ltac:(lia)) as [P1 P2].
  split.
  - intros (m & Hm & Heq). exact (P1 m Hm Heq).
  - intros Hnp. apply P2; [lia | exact Hnp].
Qed.

Lemma calcCacheLineSize_const_clock_witness :
  (forall k, (fun _ : nat => 42) (S k) = (fun _ : nat => 42) k) /\
  calcCacheLineSize (fun _ => 42) 48 0 = Err EmptyMax.
Proof.
  assert (Hc : forall k, (fun _ : nat => 42) (S k) = (fun _ : nat => 42) k) by (intros k; reflexivity).
  split; [exact Hc|].
  assert (Hm : 48 / ptr_size <= vector_max_size) by (vm_compute; discriminate).
  destruct (calcCacheLineSize_const_clock (fun _ => 42) 48 0 Hc ltac:(lia) Hm) as [_ P2].
  apply P2. intros m Hm0 Heq. change (48 / ptr_size) with 6 in Heq.
  destruct (Z.lt_ge_cases m 3) as [Hm3 | Hm3].
  - assert (2^m <= 2^2) by (apply Z.pow_le_mono_r; lia). lia.
  - assert (2^3 <= 2^m) by (apply Z.pow_le_mono_r; lia). lia.
Defined.

(** X13. [main] with a clock whose consecutive readings are less than
    2^60 ns apart: [tryCacheLevelSizes(8 * KB, 256 * KB)] returns, and
    [selectCacheSize] picks [cacheSize = 8192 * (j + 1)] bytes for some
    [3 <= j <= 29] (the size of probe [j]). Then either
    [calcCacheLineSize(cacheSize)] returns [8 * 2^k] bytes, less than
    twice the cache size, and [main] reports both values, or it takes
    [max_element] of an empty range, which is possible only when the
    selected [cacheSize / 8 = 1024 * (j + 1)] slots is not a power of two.
    Nothing else can go wrong. *)
Theorem main_outcome (clk : nat -> Z) :
  clock_ok clk ->
  exists infos c' j,
    tryCacheLevelSizes clk (8 * KB) (256 * KB) 0 = Ok (infos, c') /\
    3 <= j <= 29 /\ selectCacheSize infos 3 = Ok (8192 * (j + 1)) /\
    ((exists ls c'', calcCacheLineSize clk (8192 * (j + 1)) c' = Ok (ls, c'') /\
        main_model clk = Ok (8192 * (j + 1), ls) /\
        exists k, 0 <= k /\ ls = ptr_size * 2^k /\ ls < 2 * (8192 * (j + 1))) \/
     (calcCacheLineSize clk (8192 * (j + 1)) c' = Err EmptyMax /\
      main_model clk = Err EmptyMax /\
      forall m, 0 <= m -> 8192 * (j + 1) / ptr_size <> 2^m)).
Proof.
  intros Hclk. pose proof vector_max_size_val.
  destruct (levels_main clk 0 Hclk) as (infos & c' & Hl & Hlen & Hsz & Hsm).
  destruct (select_first_max infos 3 ltac:(lia) ltac:(rewrite Hlen; lia) Hsm)
    as (k & Hk & Hsel & _).
  rewrite Hlen in Hk.
  destruct (lookup_lt_is_Some_2 infos (Z.to_nat (k + 1)) ltac:(lia)) as [x Hx].
  assert (Hcs : sizeAt infos (k + 1) = 8192 * (k + 1 + 1)).
  { unfold sizeAt. rewrite Hx, (Hsz _ x Hx). lia. }
  rewrite Hcs in Hsel.
  exists infos, c', (k + 1).
  change (8 * KB) with (8 * 1024). change (256 * KB) with (256 * 1024).
  split; [exact Hl|]. split; [lia|]. split; [exact Hsel|].
  unfold main_model. change (8 * KB) with (8 * 1024). change (256 * KB) with (256 * 1024).
  rewrite Hl, bind_Ok. cbv beta iota. rewrite Hsel, bind_Ok.
  assert (Hdiv : 8192 * (k + 1 + 1) / ptr_size = 1024 * (k + 1 + 1)).
  { unfold ptr_size. replace (8192 * (k + 1 + 1)) with (1024 * (k + 1 + 1) * 8) by ring.
    apply Z.div_mul. lia. }
  assert (Hm : 8192 * (k + 1 + 1) / ptr_size <= vector_max_size) by (rewrite Hdiv; lia).
  unfold calcCacheLineSize.
  change (line_loop clk 64 (8192 * (k + 1 + 1) / ptr_size) 1 LLONG_MAX c')
    with (line_loop clk 64 (8192 * (k + 1 + 1) / ptr_size) (2^0) LLONG_MAX c').
  destruct (line_loop_outcome clk _ Hclk Hm 64 0 LLONG_MAX c' ltac:(lia) ltac:(lia))
    as [(r & c'' & Hr) | [Hr Hnp]].
  - left. exists r, c''. rewrite Hr, bind_Ok. split; [reflexivity|]. split; [reflexivity|].
    destruct (line_loop_pow clk _ 64 0 LLONG_MAX c' r c'' ltac:(lia) ltac:(lia) ltac:(lia) Hr)
      as (e & He & Hre & Hb).
    exists e. split; [exact He|]. split; [exact Hre|].
    rewrite Hdiv in Hb. rewrite Hre. unfold ptr_size. destruct Hb as [-> | Hb]; lia.
  - right. rewrite Hr, bind_Err. split; [reflexivity|]. split; [reflexivity|].
    exact Hnp.
Qed.

Lemma main_outcome_witness :
  clock_ok const_clock /\
  exists infos c' j, tryCacheLevelSizes const_clock (8 * KB) (256 * KB) 0 = Ok (infos, c') /\
    3 <= j <= 29 /\ selectCacheSize infos 3 = Ok (8192 * (j + 1)).
Proof.
  assert (Hc : clock_ok const_clock) by (intros k; unfold const_clock; lia).
  split; [exact Hc|].
  destruct (main_outcome const_clock Hc) as (infos & c' & j & Ht & Hj & Hs & _).
  exists infos, c', j. split; [exact Ht|]. split; [exact Hj | exact Hs].
Defined.

Lemma maxElement_map (g : RawLevelInfo -> RawLevelInfo) (ws : list RawLevelInfo) :
  (forall a b, (timeNanos (g a) <? timeNanos (g b)) = (timeNanos a <? timeNanos b)) ->
  maxElement (map g ws) = (m ← maxElement ws; Ok (g m)).
Proof.
  intros Hg. destruct ws as [|x r]; [reflexivity|].
  cbn [map maxElement]. rewrite bind_Ok. f_equal.
  revert x. induction r as [|y r IH]; intros x; [reflexivity|].
  cbn [map fold_left]. rewrite Hg.
  destruct (timeNanos x <? timeNanos y); apply IH.
Qed.

Lemma sizeAt_scale (infos : list RawLevelInfo) (k j : Z) :
  sizeAt (map (fun x => mkInfo (arraySizeBytes x) (k * timeNanos x)) infos) j = sizeAt infos j.
Proof. unfold sizeAt. rewrite list_lookup_fmap. destruct (infos !! Z.to_nat j); reflexivity. Qed.

Lemma timeAt_scale (infos : list RawLevelInfo) (k j : Z) :
  timeAt (map (fun x => mkInfo (arraySizeBytes x) (k * timeNanos x)) infos) j = k * timeAt infos j.
Proof.
  unfold timeAt. rewrite list_lookup_fmap.
  destruct (infos !! Z.to_nat j); simpl; lia.
Qed.

(** X14. Measuring time in another unit does not change the selected
    cache size: for at least three points, multiplying every time by the
    same factor [k > 0] (as long as the times stay small) gives the same
    result, value or fault, from [selectCacheSize]. *)
Theorem selectCacheSize_scale (infos : list RawLevelInfo) (w k : Z) :
  0 < k -> 3 <= Z.of_nat (length infos) < 2^63 -> small_times infos ->
  small_times (map (fun x => mkInfo (arraySizeBytes x) (k * timeNanos x)) infos) ->
  selectCacheSize (map (fun x => mkInfo (arraySizeBytes x) (k * timeNanos x)) infos) w =
  selectCacheSize infos w.
Proof.
  intros Hk Hn Hs Hs'.
  set (g := fun x => mkInfo (arraySizeBytes x) (k * timeNanos x)) in *.
  destruct (Z.ltb_spec w 2) as [Hw | Hw].
  { unfold selectCacheSize. destruct (Z.ltb_spec w 2); [reflexivity | lia]. }
  assert (Hl : length (map g infos) = length infos) by apply length_map.
  destruct (select_windowed (map g infos) w Hw ltac:(rewrite Hl; lia) Hs') as (_ & _ & _ & E1).
  destruct (select_windowed infos w Hw Hn Hs) as (_ & _ & _ & E2).
  rewrite E1, E2, Hl.
  set (S := seqZ (w - 1) (Z.of_nat (length infos) - w - 2)).
  assert (Hmap : map (winEntry (map g infos) w) S = map g (map (winEntry infos w) S)).
  { rewrite map_map. apply map_ext. intros j. unfold winEntry, g.
    rewrite !sizeAt_scale, !timeAt_scale. cbn [arraySizeBytes timeNanos]. f_equal. ring. }
  rewrite Hmap, maxElement_map.
  - destruct (maxElement (map (winEntry infos w) S)); reflexivity.
  - intros a b. unfold g. cbn [timeNanos].
    destruct (Z.ltb_spec (k * timeNanos a) (k * timeNanos b)),
             (Z.ltb_spec (timeNanos a) (timeNanos b)); try reflexivity; nia.
Qed.

Lemma selectCacheSize_scale_witness :
  selectCacheSize (map (fun x => mkInfo (arraySizeBytes x) (1000 * timeNanos x)) sample7) 3 =
  selectCacheSize sample7 3.
Proof.
  apply selectCacheSize_scale.
  - lia.
  - vm_compute. split; [discriminate | reflexivity].
  - apply small_times_b_ok. vm_compute. reflexivity.
  - apply small_times_b_ok. vm_compute. reflexivity.
Defined.
